(** * DigitalInput: transition tracker and callback trampoline

    A shallow embedding of [Arduino/DigitalInputs] (namespace [bridge]):
    [meta.h] (the table that turns a one-argument callback into a
    zero-argument interrupt entry point), [tools.h] (the port read macro) and
    [DigitalInput.h]/[DigitalInput.cpp] (the tracker itself).

    Conventions.  Machine integers are [Z] with their wrap-around written
    out ([uint32]).  Function pointers are addresses in [Z], [0] being
    [nullptr]; an indirect call is recorded as an event that names the
    pointer and the arguments.  What [Arduino.h] declares and the sources
    only use (pin tables, the width of [int]) is gathered in the class
    [Target]. *)

From Stdlib Require Import ZArith List Bool Lia.
From stdpp Require Import base option list gmap.
Import ListNotations.
Local Open Scope Z_scope.

(* ===================================================================== *)
(** * Part I: definitions *)
(* ===================================================================== *)

(** ** The target: declarations of [Arduino.h] the sources rely on *)

(** [INT_MAX] is the largest [int]; the C++ standard promises at least 16
    bits.  The three pin tables are those of the board's [pins_arduino.h];
    [digitalPinToInterrupt] answers a negative number ([NOT_AN_INTERRUPT])
    for a pin without an external interrupt.  [OnChange_entry] is the address
    of the static member [DigitalInput::OnChange(Data)]. *)
Class Target := {
  INT_MAX : Z;
  INT_MAX_min : 32767 <= INT_MAX;
  portInputRegister_digitalPinToPort : Z -> Z;
  digitalPinToBitMask : Z -> Z;
  digitalPinToInterrupt : Z -> Z;
  OnChange_entry : Z
}.

(** Unsigned 32-bit arithmetic ([uint32_t]): results are reduced modulo
    [2^32]. *)
Definition UINT32_MOD : Z := 4294967296.

Definition uint32 (z : Z) : Z := z mod UINT32_MOD.

Definition is_uint32 (z : Z) : Prop := 0 <= z < UINT32_MOD.

(** Conversion of an integer to [bool], as an assignment to a [bool] field
    performs it. *)
Definition bool_of_int (z : Z) : bool := negb (z =? 0).

(** ** tools.h *)

(** [#define BRIDGE_READ(base, mask) ( *(base + 0) & mask) ? 1 : 0]; [reg] is
    the byte found at [*base] when the macro is evaluated. *)
Definition BRIDGE_READ (reg mask : Z) : Z :=
  if negb (Z.land reg mask =? 0) then 1 else 0.

(** The macro has no outer parentheses, so [!BRIDGE_READ(port, mask)] is
    [!( *(port + 0) & mask) ? 1 : 0]: the negation applies to the masked byte
    and the conditional then selects [1] or [0]. *)
Definition not_BRIDGE_READ (reg mask : Z) : Z :=
  if (Z.land reg mask =? 0) then 1 else 0.

(** The logical level of the line as a read of the port yields it. *)
Definition raw_level (reg mask : Z) : bool := bool_of_int (BRIDGE_READ reg mask).

(** ** meta.h *)

Module meta.

(** [#define BRIDGE_MAX_WRAPPERS 8]: the length of [map], also the template
    argument that starts [expansion]. *)
Definition BRIDGE_MAX_WRAPPERS : nat := 8.

(** Values of [typedef void ( *Function) (void)] that the table can hold:
    [nullptr] or the address of an instance of the template [Wrapper<id>]. *)
Inductive Function : Type :=
| null
| Wrapper_instance (id : nat).

(** [struct Map]; [FunctionData] and [Data] are addresses and integers. *)
Record Map : Type := mkMap {
  data : Z;
  functionData : Z;
  function : Function
}.

(** [Map() : data(0), functionData(0), function(0) {}] *)
Definition Map_default : Map := mkMap 0 0 null.

(** The statics of the header: [uid], [map] and the guard of the local
    static [once] of [Wrap].  [map] is addressed by index the way C++ does
    it, by plain address arithmetic with no bounds check: cell [i] is the
    storage at [map + i]; the array proper is the cells [0 .. 7], each
    holding [Map()] until written.  [touched] is instrumentation: the indices
    used in every subscript [map[...]], oldest first.  A cell at an index
    outside [0 .. 7] stands for the storage past the array, which the model
    keeps apart from [uid] and from every other object; the program promises
    no such thing, so what is proved of the cells and of [uid] is for at most
    [BRIDGE_MAX_WRAPPERS] registrations, and [touched] tells which subscripts
    went outside the array. *)
Record state : Type := mkState {
  uid : Z;
  map : gmap Z Map;
  once : bool;
  touched : list Z
}.

Definition initial : state := mkState 0 ∅ false [].

Definition in_table (i : Z) : Prop := 0 <= i < Z.of_nat BRIDGE_MAX_WRAPPERS.

(** The content of [map[i]]. *)
Definition cell (st : state) (i : Z) : Map := default Map_default (map st !! i).

(** One evaluation of a subscript [map[i]]. *)
Definition touch (i : Z) (st : state) : state :=
  mkState (uid st) (map st) (once st) (touched st ++ [i]).

Definition write (i : Z) (m : Map) (st : state) : state :=
  mkState (uid st) (<[i := m]> (map st)) (once st) (touched st).

(** [map[i].function = f], [map[i].functionData = fd], [map[i].data = d] *)
Definition set_function (i : Z) (f : Function) (st : state) : state :=
  let c := cell st i in
  touch i (write i (mkMap (data c) (functionData c) f) st).

Definition set_functionData (i : Z) (fd : Z) (st : state) : state :=
  let c := cell st i in
  touch i (write i (mkMap (data c) fd (function c)) st).

Definition set_data (i : Z) (d : Z) (st : state) : state :=
  let c := cell st i in
  touch i (write i (mkMap d (functionData c) (function c)) st).

(** An indirect call [callee(argument)] through a [FunctionData] pointer. *)
Record call : Type := mkCall {
  callee : Z;
  argument : Z
}.

(** [template<int id> inline void Wrapper()]:
    [return map[id].functionData(map[id].data);] *)
Definition Wrapper (id : nat) (st : state) : call * state :=
  let i := Z.of_nat id in
  let st1 := touch i st in
  let fd := functionData (cell st1 i) in
  let st2 := touch i st1 in
  let d := data (cell st2 i) in
  (mkCall fd d, st2).

(** [template<int id> inline bool expansion()] with its specialisation
    [expansion<0>]: store [Wrapper<id>] in [map[id].function], then expand
    [id - 1], down to [0].  The result [true] only initialises [once]. *)
Fixpoint expansion (id : nat) (st : state) : state :=
  match id with
  | O => set_function 0 (Wrapper_instance 0) st
  | S id' =>
      expansion id' (set_function (Z.of_nat id) (Wrapper_instance id) st)
  end.

(** [static bool once = expansion<BRIDGE_MAX_WRAPPERS>();], the first
    statement of [Wrap]: the initialiser of a local static runs on the first
    call only. *)
Definition mark_once (st : state) : state :=
  mkState (uid st) (map st) true (touched st).

Definition run_once (st : state) : state :=
  if once st then st else mark_once (expansion BRIDGE_MAX_WRAPPERS st).

(** [uid++].  [uid] is an [int]; the increment is exact below [INT_MAX],
    far beyond the eight registrations the table has room for. *)
Definition bump_uid (st : state) : state :=
  mkState (uid st + 1) (map st) (once st) (touched st).

(** [inline Function Wrap(FunctionData functionData, Data data)] *)
Definition Wrap (fd : Z) (d : Z) (st : state) : Function * state :=
  let st0 := run_once st in
  let st1 := set_functionData (uid st0) fd st0 in
  let st2 := set_data (uid st1) d st1 in
  let st3 := touch (uid st2) st2 in
  (function (cell st3 (uid st3)), bump_uid st3).

(** Calling a value of type [Function]: [None] is a call through
    [nullptr]. *)
Definition invoke (f : Function) (st : state) : option call * state :=
  match f with
  | null => (None, st)
  | Wrapper_instance id => let '(c, st') := Wrapper id st in (Some c, st')
  end.

(** [Wrap] for each pair of a list in turn, with the entry points returned. *)
Fixpoint Wrap_all (regs : list (Z * Z)) (st : state) : list Function * state :=
  match regs with
  | [] => ([], st)
  | (fd, d) :: rest =>
      let '(f, st1) := Wrap fd d st in
      let '(fs, st2) := Wrap_all rest st1 in
      (f :: fs, st2)
  end.

(** The entry points [fs] called one after the other. *)
Fixpoint invoke_all (fs : list Function) (st : state) : list (option call) * state :=
  match fs with
  | [] => ([], st)
  | f :: rest =>
      let '(c, st1) := invoke f st in
      let '(cs, st2) := invoke_all rest st1 in
      (c :: cs, st2)
  end.

(** Every entry point of the table is in place once [Wrap] has run. *)
Definition expanded (st : state) : Prop :=
  forall j : nat, (j < BRIDGE_MAX_WRAPPERS)%nat ->
    function (cell st (Z.of_nat j)) = Wrapper_instance j.

Definition settled (st : state) : Prop := once st = true -> expanded st.

(** The call an entry point makes, read off the cells. *)
Definition dispatch (st : state) (f : Function) : option call :=
  match f with
  | null => None
  | Wrapper_instance id =>
      Some (mkCall (functionData (cell st (Z.of_nat id)))
                   (data (cell st (Z.of_nat id))))
  end.

End meta.

(** ** DigitalInput.h, DigitalInput.cpp *)

Module bridge.

(** A call of one of the two listener types, [Function] and [FunctionData],
    through pointer [f] with the arguments it receives. *)
Inductive invocation : Type :=
| call_function (f this : Z) (state : bool)
| call_functionData (f this : Z) (state : bool) (data : Z).

(** The data members of [class DigitalInput], in the order of the header. *)
Record DigitalInput : Type := mkDigitalInput {
  port : Z;
  mask : Z;
  function : Z;
  functionData : Z;
  data : Z;
  pin : Z;
  interruptible : bool;
  asyncCount : Z;
  asyncState : bool;
  syncCount : Z;
  syncState : bool
}.

(** The two counters hold 32-bit unsigned values. *)
Definition counters_ok (self : DigitalInput) : Prop :=
  is_uint32 (asyncCount self) /\ is_uint32 (syncCount self).

(** What the methods leave of an object when only the named members are
    assigned. *)
Definition with_async (state : bool) (count : Z) (self : DigitalInput) : DigitalInput :=
  mkDigitalInput (port self) (mask self) (function self) (functionData self)
    (data self) (pin self) (interruptible self)
    count state (syncCount self) (syncState self).

Definition with_syncState (state : bool) (self : DigitalInput) : DigitalInput :=
  mkDigitalInput (port self) (mask self) (function self) (functionData self)
    (data self) (pin self) (interruptible self)
    (asyncCount self) (asyncState self) (syncCount self) state.

Definition with_syncCount (count : Z) (self : DigitalInput) : DigitalInput :=
  mkDigitalInput (port self) (mask self) (function self) (functionData self)
    (data self) (pin self) (interruptible self)
    (asyncCount self) (asyncState self) count (syncState self).

(** The statics of [meta.h] and the interrupt vectors of the controller:
    which entry point, if any, is attached to each interrupt number. *)
Record World : Type := mkWorld {
  wrappers : meta.state;
  vectors : gmap Z meta.Function
}.

Definition power_on : World := mkWorld meta.initial ∅.

(** Modelled from the spec: [attachInterrupt] and [detachInterrupt] are
    library routines of the Arduino core, absent from the sources; section 6
    gives their contract as [registerEdgeInterrupt(interruptId, entryPoint)]
    and [unregisterInterrupt(interruptId)]. *)
Definition attachInterrupt (interruptId : Z) (entry : meta.Function)
    (v : gmap Z meta.Function) : gmap Z meta.Function :=
  <[interruptId := entry]> v.

Definition detachInterrupt (interruptId : Z)
    (v : gmap Z meta.Function) : gmap Z meta.Function :=
  delete interruptId v.

(** Modelled from the spec: the controller raising interrupt [interruptId]
    calls the entry point attached to it, if there is one (section 2:
    hardware event, then trampoline, then the tracker's async update). *)
Definition raise (interruptId : Z) (w : World) : option meta.call * World :=
  match vectors w !! interruptId with
  | None => (None, w)
  | Some entry =>
      let '(c, wr) := meta.invoke entry (wrappers w) in
      (c, mkWorld wr (vectors w))
  end.

(** How a run of [Step] ends: it returns, or the loop counter, an [int],
    is incremented past [INT_MAX], for which C++ defines no behaviour.
    [OutOfFuel] belongs to the model only, see [Step_returns_or_undefined]. *)
Inductive outcome (A : Type) : Type :=
| Done (a : A)
| Undefined
| OutOfFuel.
Arguments Done {A} a.
Arguments Undefined {A}.
Arguments OutOfFuel {A}.

Section Methods.
Context {T : Target}.

(** [DigitalInput::DigitalInput(int8_t pin, Function function,
    FunctionData functionData, Data data)], the private constructor.
    [this] is the address of the object, [reg] the byte read from the port
    and [mem] what the storage of the object holds beforehand: the
    constructor leaves [asyncCount] and [asyncState] as they are when the pin
    has no interrupt.  [pinMode] only configures the pin. *)
Definition DigitalInput_new (this pin function functionData data reg : Z)
    (mem : DigitalInput) (w : World) : DigitalInput * World :=
  let port := portInputRegister_digitalPinToPort pin in
  let mask := digitalPinToBitMask pin in
  let syncCount := 0 in
  let interruptId := digitalPinToInterrupt pin in
  if 0 <=? interruptId then
    let asyncCount := 1 in
    let asyncState := bool_of_int (BRIDGE_READ reg mask) in
    let syncState := negb asyncState in
    let '(entry, wr) := meta.Wrap OnChange_entry this (wrappers w) in
    (mkDigitalInput port mask function functionData data pin true
       asyncCount asyncState syncCount syncState,
     mkWorld wr (attachInterrupt interruptId entry (vectors w)))
  else
    let syncState := bool_of_int (not_BRIDGE_READ reg mask) in
    (mkDigitalInput port mask function functionData data pin false
       (asyncCount mem) (asyncState mem) syncCount syncState,
     w).

(** The public constructors delegate with [nullptr] for the other
    listener. *)
Definition DigitalInput_of_function (this pin function reg : Z) :=
  DigitalInput_new this pin function 0 0 reg.

Definition DigitalInput_of_functionData (this pin functionData data reg : Z) :=
  DigitalInput_new this pin 0 functionData data reg.

(** [DigitalInput::~DigitalInput()] *)
Definition DigitalInput_delete (self : DigitalInput) (w : World) : World :=
  mkWorld (wrappers w)
    (detachInterrupt (digitalPinToInterrupt (pin self)) (vectors w)).

(** [void DigitalInput::OnChange()] *)
Definition OnChange (reg : Z) (self : DigitalInput) : DigitalInput :=
  let asyncState := bool_of_int (BRIDGE_READ reg (mask self)) in
  with_async asyncState (uint32 (asyncCount self + 1)) self.

(** [static void DigitalInput::OnChange(Data data)]:
    [((DigitalInput* ) data)->OnChange();].  [objects] holds the members of
    the live objects by address. *)
Definition OnChange_static (data reg : Z)
    (objects : gmap Z DigitalInput) : gmap Z DigitalInput :=
  alter (OnChange reg) data objects.

(** Modelled from the spec: an edge on the line of interrupt [interruptId]
    while the port reads [reg].  The controller calls the entry point
    attached to the interrupt; an entry point that forwards to
    [OnChange_entry] runs the static [OnChange] on its token. *)
Definition edge (interruptId reg : Z) (w : World)
    (objects : gmap Z DigitalInput) : World * gmap Z DigitalInput :=
  match raise interruptId w with
  | (Some c, w') =>
      if meta.callee c =? OnChange_entry
      then (w', OnChange_static (meta.argument c) reg objects)
      else (w', objects)
  | (None, w') => (w', objects)
  end.

(** The listener [Step] calls: [if (function) ... else ...]. *)
Definition active_handler (this : Z) (self : DigitalInput) (state : bool) : invocation :=
  if negb (function self =? 0) then call_function (function self) this state
  else call_functionData (functionData self) this state (data self).

(** [for (int c = 0; c < change; c++) { syncState = !syncState;
    listener(this, syncState...); }] from counter value [c] on.  The
    result is the final [syncState] and the calls made, oldest first. *)
Fixpoint catch_up (fuel : nat) (listener : bool -> invocation)
    (change c : Z) (syncState : bool) : outcome (bool * list invocation) :=
  match fuel with
  | O => OutOfFuel
  | S fuel' =>
      if c <? change then
        let syncState' := negb syncState in
        let made := listener syncState' in
        if c + 1 <=? INT_MAX then
          match catch_up fuel' listener change (c + 1) syncState' with
          | Done (final, rest) => Done (final, made :: rest)
          | Undefined => Undefined
          | OutOfFuel => OutOfFuel
          end
        else Undefined
      else Done (syncState, [])
  end.

(** [void DigitalInput::Step()].  [reg] is the byte a read of the port
    yields during the call; only a pin without interrupt reads it.  The
    snapshot between [noInterrupts()] and [interrupts()] is the pair of
    fields as they are on entry.  The loop tests its condition at most
    [change + 1] times, which bounds the recursion of [catch_up]. *)
Definition Step (this reg : Z) (self : DigitalInput)
    : outcome (DigitalInput * list invocation) :=
  let '(state, count, change) :=
    if interruptible self then
      let state := asyncState self in
      let count := asyncCount self in
      (state, count, uint32 (count - syncCount self))
    else
      let state := bool_of_int (BRIDGE_READ reg (mask self)) in
      if Bool.eqb state (syncState self) then (state, syncCount self, 0)
      else (state, uint32 (syncCount self + 1), 1) in
  if 0 <? change then
    let fuel := S (Z.to_nat change) in
    let looped :=
      if negb (function self =? 0) then
        catch_up fuel (call_function (function self) this) change 0 (syncState self)
      else
        catch_up fuel
          (fun s => call_functionData (functionData self) this s (data self))
          change 0 (syncState self) in
    match looped with
    | Done (final, made) =>
        Done (with_syncCount count (with_syncState final self), made)
    | Undefined => Undefined
    | OutOfFuel => OutOfFuel
    end
  else Done (self, []).

(** [Step] once the path through its first [if] has fixed [count] and
    [change]. *)
Definition reconcile (this : Z) (self : DigitalInput) (count change : Z)
    : outcome (DigitalInput * list invocation) :=
  if 0 <? change then
    match catch_up (S (Z.to_nat change)) (active_handler this self) change 0
            (syncState self) with
    | Done (final, made) =>
        Done (with_syncCount count (with_syncState final self), made)
    | Undefined => Undefined
    | OutOfFuel => OutOfFuel
    end
  else Done (self, []).

(** [bool DigitalInput::GetState()] and [int8_t DigitalInput::GetPin()] *)
Definition GetState (self : DigitalInput) : bool := syncState self.

Definition GetPin (self : DigitalInput) : Z := pin self.

(** *** [Step] instruction by instruction

    The interrupt routine can run between any two instructions of [Step]
    that are not bracketed by [noInterrupts()]/[interrupts()].  The machine
    below takes [Step] apart: the snapshot, each turn of the loop, and the
    final assignment of [syncCount] are steps of their own. *)

(** Where the main context stands: outside [Step], or inside its loop with
    the locals [count], [change] and [c]. *)
Inductive control : Type :=
| Idle
| Looping (count change c : Z).

Record machine : Type := mkMachine {
  object : DigitalInput;
  at_ : control;
  calls : list invocation
}.

(** Entry of [Step] up to the test [if (change > 0)]. *)
Definition enter (reg : Z) (m : machine) : machine :=
  let self := object m in
  let '(count, change) :=
    if interruptible self then
      (asyncCount self, uint32 (asyncCount self - syncCount self))
    else
      if Bool.eqb (bool_of_int (BRIDGE_READ reg (mask self))) (syncState self)
      then (syncCount self, 0)
      else (uint32 (syncCount self + 1), 1) in
  if 0 <? change then mkMachine self (Looping count change 0) (calls m)
  else mkMachine self Idle (calls m).

(** One turn of the loop, or its exit followed by [syncCount = count].
    [None]: the machine is not in the loop, or the increment of [c] is
    undefined.  No method assigns the listener members, so the test
    [if (function)] made before the loop is the one [active_handler] makes
    at each turn. *)
Definition turn (this : Z) (m : machine) : option machine :=
  match at_ m with
  | Idle => None
  | Looping count change c =>
      if c <? change then
        let self := with_syncState (negb (syncState (object m))) (object m) in
        let made := active_handler this self (syncState self) in
        if c + 1 <=? INT_MAX then
          Some (mkMachine self (Looping count change (c + 1)) (calls m ++ [made]))
        else None
      else
        Some (mkMachine (with_syncCount count (object m)) Idle (calls m))
  end.

(** The interrupt routine preempting the main context. *)
Definition preempt (reg : Z) (m : machine) : machine :=
  mkMachine (OnChange reg (object m)) (at_ m) (calls m).

Inductive main_step (this : Z) : machine -> machine -> Prop :=
| main_enter reg m :
    at_ m = Idle -> main_step this m (enter reg m)
| main_turn m m' :
    turn this m = Some m' -> main_step this m m'.

(** The interrupt routine is attached only when the pin has an interrupt. *)
Inductive isr_step : machine -> machine -> Prop :=
| isr_fire reg m :
    interruptible (object m) = true -> isr_step m (preempt reg m).

(** [reachable this m0 k m]: [m] is reached from [m0] by main-context steps
    interleaved in any way with [k] runs of the interrupt routine. *)
Inductive reachable (this : Z) (m0 : machine) : nat -> machine -> Prop :=
| reach_start : reachable this m0 O m0
| reach_main k m m' :
    reachable this m0 k m -> main_step this m m' -> reachable this m0 k m'
| reach_isr k m m' :
    reachable this m0 k m -> isr_step m m' -> reachable this m0 (S k) m'.

(** A call of [Step] from its entry to its return, the interrupt routine
    running any number of times while the loop is under way.
    [in_Step this m m']: the call that has reached [m] returns in [m']. *)
Inductive in_Step (this : Z) : machine -> machine -> Prop :=
| in_Step_return m :
    at_ m = Idle -> in_Step this m m
| in_Step_turn m m1 m' :
    turn this m = Some m1 -> in_Step this m1 m' -> in_Step this m m'
| in_Step_isr reg m m' :
    at_ m <> Idle -> interruptible (object m) = true ->
    in_Step this (preempt reg m) m' -> in_Step this m m'.

Definition Step_call (this : Z) (m m' : machine) : Prop :=
  at_ m = Idle /\ exists reg, in_Step this (enter reg m) m'.

(** Interrupt numbers are not negative: the constructor attaches for
    [interruptId >= 0] only. *)
Definition vectors_valid (w : World) : Prop :=
  forall k, is_Some (vectors w !! k) -> 0 <= k.

(** What holds of the machine of an interrupt-driven object while
    [asyncCount] has not wrapped: it is one more than the number [k] of runs
    of the interrupt routine, [syncCount] has not passed it, and the snapshot
    [count] of a [Step] under way lies between the two. *)
Definition catching_up (k : nat) (m : machine) : Prop :=
  interruptible (object m) = true /\
  asyncCount (object m) = 1 + Z.of_nat k /\
  0 <= syncCount (object m) <= asyncCount (object m) /\
  match at_ m with
  | Idle => True
  | Looping count change c =>
      syncCount (object m) <= count <= asyncCount (object m)
  end.

(** What holds of the machine of an interrupt-driven object at all times:
    the counters and the snapshot of a [Step] under way are 32-bit values. *)
Definition well_typed (m : machine) : Prop :=
  interruptible (object m) = true /\
  counters_ok (object m) /\
  match at_ m with
  | Idle => True
  | Looping count change c => is_uint32 count
  end.

(** The machine right after construction. *)
Definition constructed (self : DigitalInput) : machine := mkMachine self Idle [].

End Methods.

End bridge.

(** ** A concrete target and concrete scenarios *)

(** The ATmega328P boards (Arduino Uno) under avr-gcc: [int] has 16 bits;
    pins 0-7 are bits of port D, 8-13 of port B, 14-19 of port C; pins 2 and
    3 carry the external interrupts 0 and 1. *)
Definition uno_port (pin : Z) : Z :=
  if (0 <=? pin) && (pin <=? 7) then 41
  else if (8 <=? pin) && (pin <=? 13) then 35
  else if (14 <=? pin) && (pin <=? 19) then 38
  else 0.

Definition uno_mask (pin : Z) : Z :=
  if (0 <=? pin) && (pin <=? 7) then Z.shiftl 1 pin
  else if (8 <=? pin) && (pin <=? 13) then Z.shiftl 1 (pin - 8)
  else if (14 <=? pin) && (pin <=? 19) then Z.shiftl 1 (pin - 14)
  else 0.

Definition uno_interrupt (pin : Z) : Z :=
  if pin =? 2 then 0 else if pin =? 3 then 1 else -1.

#[export] Instance uno : Target := {|
  INT_MAX := 32767;
  INT_MAX_min := Z.le_refl 32767;
  portInputRegister_digitalPinToPort := uno_port;
  digitalPinToBitMask := uno_mask;
  digitalPinToInterrupt := uno_interrupt;
  OnChange_entry := 512
|}.

(** Storage that static initialisation has zeroed, where an object declared
    at namespace scope is constructed. *)
Definition zeroed : bridge.DigitalInput :=
  bridge.mkDigitalInput 0 0 0 0 0 0 false 0 false 0 false.

(** An object on pin 2 (interrupt-driven) with a plain listener, and one
    on pin 4 (polling-only) with a listener that takes user data; each is
    constructed in zeroed storage while the port reads [reg]. *)
Definition uno_pin2 (reg : Z) : bridge.DigitalInput :=
  fst (bridge.DigitalInput_of_function 256 2 1024 reg zeroed bridge.power_on).

Definition uno_pin4 (reg : Z) : bridge.DigitalInput :=
  fst (bridge.DigitalInput_of_functionData 288 4 2048 77 reg zeroed bridge.power_on).

(** The object a run of [Step] leaves, [self] itself if the run is
    undefined. *)
Definition after_Step (this reg : Z) (self : bridge.DigitalInput)
    : bridge.DigitalInput :=
  match bridge.Step this reg self with
  | bridge.Done (self', _) => self'
  | _ => self
  end.

(** Three registrations, two of them of the same callback. *)
Definition three_registrations : list (Z * Z) :=
  [(4096, 11); (4100, 22); (4096, 33)].

(** The interrupt routine run once for each element of [regs], the bytes
    its successive reads of the port yield. *)
Definition OnChange_each `{Target} (regs : list Z)
    (self : bridge.DigitalInput) : bridge.DigitalInput :=
  fold_left (fun s reg => bridge.OnChange reg s) regs self.

(** Pin 2 with the line high: the first report made, then 40000 edges
    before the next [Step]. *)
Definition uno_pin2_overrun : bridge.DigitalInput :=
  OnChange_each (replicate (Z.to_nat 40000) 0) (after_Step 256 4 (uno_pin2 4)).

(** [!state] applied [n] times. *)
Definition negated (n : nat) (state : bool) : bool := Nat.iter n negb state.

(** The calls of a catch-up over [n] pending toggles from [state] on:
    the [i]-th reports [state] negated [i] times. *)
Definition replay (listener : bool -> bridge.invocation) (n : nat)
    (state : bool) : list bridge.invocation :=
  List.map (fun i => listener (negated i state)) (seq 1 n).

(** ** tools.h, the macros that write *)

(** The port registers as bytes by address: [base + 0] is the input
    register the tracker reads, [base + 1] the direction register and
    [base + 2] the output register.  [uint8] is the conversion an assignment
    to a [uint8_t] performs; [~mask] is taken on the promoted [int]. *)
Definition uint8 (z : Z) : Z := z mod 256.

Definition is_uint8 (z : Z) : Prop := 0 <= z < 256.

Definition load (mem : gmap Z Z) (address : Z) : Z := default 0 (mem !! address).

(** [E1 &= ~mask] and [E1 |= mask] on the byte at [address]. *)
Definition and_not_assign (address mask : Z) (mem : gmap Z Z) : gmap Z Z :=
  <[address := uint8 (Z.land (load mem address) (Z.lnot mask))]> mem.

Definition or_assign (address mask : Z) (mem : gmap Z Z) : gmap Z Z :=
  <[address := uint8 (Z.lor (load mem address) mask)]> mem.

(** [#define BRIDGE_MAKE_INPUT(base, mask)
    *(base + 1) &= ~mask, *(base + 2) &= ~mask] *)
Definition BRIDGE_MAKE_INPUT (base mask : Z) (mem : gmap Z Z) : gmap Z Z :=
  and_not_assign (base + 2) mask (and_not_assign (base + 1) mask mem).

(** [#define BRIDGE_MAKE_OUTPUT(base, mask) *(base + 1) |= mask] *)
Definition BRIDGE_MAKE_OUTPUT (base mask : Z) (mem : gmap Z Z) : gmap Z Z :=
  or_assign (base + 1) mask mem.

(** [#define BRIDGE_WRITE_LOW(base, mask) *(base + 2) &= ~mask] *)
Definition BRIDGE_WRITE_LOW (base mask : Z) (mem : gmap Z Z) : gmap Z Z :=
  and_not_assign (base + 2) mask mem.

(** [#define BRIDGE_WRITE_HIGH(base, mask) *(base + 2) |= mask] *)
Definition BRIDGE_WRITE_HIGH (base mask : Z) (mem : gmap Z Z) : gmap Z Z :=
  or_assign (base + 2) mask mem.

(** ** Sequences of operations *)

Section Sequences.
Import bridge.
Context {T : Target}.



(** The members no method assigns. *)
Definition same_config (a b : DigitalInput) : Prop :=
  port a = port b /\ mask a = mask b /\ function a = function b /\
  functionData a = functionData b /\ data a = data b /\ pin a = pin b /\
  interruptible a = interruptible b.

(** Interrupt [interruptId] is attached to an entry point whose slot is in
    use and holds the static [OnChange] with the address [this]. *)
Definition attached (w : World) (interruptId this : Z) : Prop :=
  exists k : nat,
    vectors w !! interruptId = Some (meta.Wrapper_instance k) /\
    Z.of_nat k < meta.uid (wrappers w) /\
    meta.functionData (meta.cell (wrappers w) (Z.of_nat k)) = OnChange_entry /\
    meta.data (meta.cell (wrappers w) (Z.of_nat k)) = this.

(** Objects coming and going. *)
Inductive operation : Type :=
| construct (this pin function functionData data reg : Z) (mem : DigitalInput)
| destroy (self : DigitalInput).

Definition perform (w : World) (op : operation) : World :=
  match op with
  | construct this pin function functionData data reg mem =>
      snd (DigitalInput_new this pin function functionData data reg mem w)
  | destroy self => DigitalInput_delete self w
  end.

Definition interrupt_of (op : operation) : Z :=
  match op with
  | construct this pin function functionData data reg mem =>
      digitalPinToInterrupt pin
  | destroy self => digitalPinToInterrupt (pin self)
  end.

Definition perform_all (ops : list operation) (w : World) : World :=
  fold_left perform ops w.


(** How far the calls and the counters of the machine of an
    interrupt-driven object have got, while [asyncCount] has not wrapped:
    outside [Step] as many calls as [syncCount]; inside the loop [c] more,
    on the way to the snapshot. *)
Definition counted (m : machine) : Prop :=
  match at_ m with
  | Idle => Z.of_nat (length (calls m)) = syncCount (object m)
  | Looping count change c =>
      Z.of_nat (length (calls m)) = syncCount (object m) + c /\
      0 <= c <= change /\
      count = syncCount (object m) + change
  end.

(** What holds of the machine of a polling-only object at all times:
    [asyncCount] is still the [stored] value the object's storage held
    before construction, [syncCount] is a 32-bit value, and the [count] of a
    [Step] under way is [syncCount] plus one, modulo [2^32]. *)
Definition polling_only (stored : Z) (m : machine) : Prop :=
  interruptible (object m) = false /\
  asyncCount (object m) = stored /\
  is_uint32 (syncCount (object m)) /\
  match at_ m with
  | Idle => True
  | Looping count change c => count = uint32 (syncCount (object m) + 1)
  end.


(** The pointer an indirect call goes through. *)
Definition called_pointer (made : invocation) : Z :=
  match made with
  | call_function f _ _ => f
  | call_functionData f _ _ _ => f
  end.

(** [Step] is defined: the loop counter stays in range and no call goes
    through [nullptr], so that [Step] returns once the listener has returned
    from each call. *)
Definition Step_defined (this reg : Z) (self : DigitalInput) : Prop :=
  exists self' made,
    Step this reg self = Done (self', made) /\
    Forall (fun call => called_pointer call <> 0) made.

End Sequences.

(** Pin 2 of the Uno with both counters at the largest 32-bit value. *)
Definition uno_pin2_at_the_wrap : bridge.DigitalInput :=
  bridge.with_syncCount 4294967295 (bridge.with_async true 4294967295 (uno_pin2 4)).

(** After an object on pin 2: one on pin 3 (interrupt 1), one on pin 4
    (polling-only), and the one on pin 3 destroyed again. *)
Definition uno_comings_and_goings : list operation :=
  [construct 320 3 1024 0 0 8 zeroed;
   construct 288 4 0 2048 77 16 zeroed;
   destroy (fst (bridge.DigitalInput_of_function 320 3 1024 8 zeroed bridge.power_on))].

(* ===================================================================== *)
(** * Part II: properties *)
(* ===================================================================== *)

(** ** Arithmetic of the embedding *)

Lemma uint32_small z : is_uint32 z -> uint32 z = z.
Proof. unfold is_uint32, uint32. intros. apply Z.mod_small. lia. Qed.

Lemma uint32_is_uint32 z : is_uint32 (uint32 z).
Proof.
  unfold is_uint32, uint32, UINT32_MOD. apply Z.mod_pos_bound. lia.
Qed.

Lemma uint32_sub_zero a b :
  is_uint32 a -> is_uint32 b -> uint32 (a - b) = 0 -> a = b.
Proof.
  unfold is_uint32, uint32, UINT32_MOD. intros Ha Hb H.
  apply Z.mod_divide in H; [|lia]. destruct H as [q Hq].
  assert (q = 0) by nia. lia.
Qed.

(** The two expansions of the port read macro are each other's negation. *)
Lemma not_BRIDGE_READ_negates reg mask :
  bool_of_int (not_BRIDGE_READ reg mask) = negb (raw_level reg mask).
Proof.
  unfold raw_level, not_BRIDGE_READ, BRIDGE_READ, bool_of_int.
  destruct (Z.land reg mask =? 0); reflexivity.
Qed.

Lemma negated_S n state : negated (S n) state = negb (negated n state).
Proof. reflexivity. Qed.

Lemma negated_shift n state : negated n (negb state) = negated (S n) state.
Proof.
  induction n as [|n IH]; [reflexivity|].
  rewrite negated_S, IH. reflexivity.
Qed.

Lemma replay_S listener n state :
  replay listener (S n) state =
  listener (negb state) :: replay listener n (negb state).
Proof.
  unfold replay. cbn [seq List.map]. f_equal.
  rewrite <- seq_shift, List.map_map.
  apply List.map_ext. intros i. rewrite negated_shift. reflexivity.
Qed.

Lemma replay_length listener n state : length (replay listener n state) = n.
Proof. unfold replay. rewrite List.length_map, length_seq. reflexivity. Qed.

(** ** The trampoline table *)

Section Trampoline.
Import meta.

(** *** Reading the statics after each elementary update *)

Lemma cell_write i m st j :
  cell (write i m st) j = if decide (i = j) then m else cell st j.
Proof.
  unfold cell, write; cbn [map].
  destruct (decide (i = j)) as [->|Hne].
  - rewrite lookup_insert_eq. reflexivity.
  - rewrite lookup_insert_ne by assumption. reflexivity.
Qed.

Lemma cell_touch i st j : cell (touch i st) j = cell st j.
Proof. reflexivity. Qed.

Lemma cell_mark_once st j : cell (mark_once st) j = cell st j.
Proof. reflexivity. Qed.

Lemma cell_bump_uid st j : cell (bump_uid st) j = cell st j.
Proof. reflexivity. Qed.

Lemma set_function_cell i f st j :
  cell (set_function i f st) j =
  if decide (i = j) then mkMap (data (cell st i)) (functionData (cell st i)) f
  else cell st j.
Proof. unfold set_function. rewrite cell_touch. apply cell_write. Qed.

Lemma set_functionData_cell i fd st j :
  cell (set_functionData i fd st) j =
  if decide (i = j) then mkMap (data (cell st i)) fd (function (cell st i))
  else cell st j.
Proof. unfold set_functionData. rewrite cell_touch. apply cell_write. Qed.

Lemma set_data_cell i d st j :
  cell (set_data i d st) j =
  if decide (i = j) then mkMap d (functionData (cell st i)) (function (cell st i))
  else cell st j.
Proof. unfold set_data. rewrite cell_touch. apply cell_write. Qed.

Lemma touch_uid i st : uid (touch i st) = uid st.
Proof. reflexivity. Qed.

Lemma mark_once_uid st : uid (mark_once st) = uid st.
Proof. reflexivity. Qed.

Lemma mark_once_touched st : touched (mark_once st) = touched st.
Proof. reflexivity. Qed.

Lemma touch_once i st : once (touch i st) = once st.
Proof. reflexivity. Qed.

Lemma touch_touched i st : touched (touch i st) = touched st ++ [i].
Proof. reflexivity. Qed.

Lemma set_functionData_once i fd st : once (set_functionData i fd st) = once st.
Proof. reflexivity. Qed.

Lemma set_data_once i d st : once (set_data i d st) = once st.
Proof. reflexivity. Qed.

Lemma set_function_uid i f st : uid (set_function i f st) = uid st.
Proof. reflexivity. Qed.

Lemma set_functionData_uid i fd st : uid (set_functionData i fd st) = uid st.
Proof. reflexivity. Qed.

Lemma set_data_uid i d st : uid (set_data i d st) = uid st.
Proof. reflexivity. Qed.

Lemma set_function_once i f st : once (set_function i f st) = once st.
Proof. reflexivity. Qed.

Lemma set_function_touched i f st :
  touched (set_function i f st) = touched st ++ [i].
Proof. reflexivity. Qed.

Lemma set_functionData_touched i fd st :
  touched (set_functionData i fd st) = touched st ++ [i].
Proof. reflexivity. Qed.

Lemma set_data_touched i d st : touched (set_data i d st) = touched st ++ [i].
Proof. reflexivity. Qed.

(** *** The expansion *)

(** [expansion<id>] fills the [function] member of the cells [id] down to
    [0] and nothing else. *)
Lemma expansion_function id : forall st (j : nat),
  function (cell (expansion id st) (Z.of_nat j)) =
  if decide (j <= id)%nat then Wrapper_instance j
  else function (cell st (Z.of_nat j)).
Proof.
  induction id as [|id IH]; intros st j.
  - cbn [expansion]. rewrite set_function_cell.
    destruct (decide (0 = Z.of_nat j)) as [E|E];
      destruct (decide (j <= 0)%nat) as [L|L]; try lia.
    + assert (j = O) by lia. subst j. reflexivity.
    + reflexivity.
  - cbn [expansion]. rewrite IH.
    destruct (decide (j <= id)%nat) as [L|L];
      destruct (decide (j <= S id)%nat) as [L'|L']; try lia; try reflexivity.
    + assert (j = S id) by lia. subst j.
      rewrite set_function_cell. rewrite decide_True by reflexivity.
      reflexivity.
    + rewrite set_function_cell. rewrite decide_False by lia. reflexivity.
Qed.

Lemma expansion_payload id : forall st j,
  functionData (cell (expansion id st) j) = functionData (cell st j) /\
  data (cell (expansion id st) j) = data (cell st j).
Proof.
  induction id as [|id IH]; intros st j; cbn [expansion].
  - rewrite set_function_cell.
    destruct (decide (0 = j)) as [<-|]; split; reflexivity.
  - destruct (IH (set_function (Z.of_nat (S id)) (Wrapper_instance (S id)) st) j)
      as [-> ->].
    rewrite set_function_cell.
    destruct (decide (Z.of_nat (S id) = j)) as [<-|]; split; reflexivity.
Qed.

Lemma expansion_uid id : forall st, uid (expansion id st) = uid st.
Proof.
  induction id as [|id IH]; intros st; cbn [expansion].
  - apply set_function_uid.
  - rewrite IH. apply set_function_uid.
Qed.

(** The indices [expansion<id>] uses: [id], [id - 1], ..., [0]. *)
Lemma expansion_touched id : forall st,
  touched (expansion id st) =
  touched st ++ List.map Z.of_nat (rev (seq 0 (S id))).
Proof.
  induction id as [|id IH]; intros st.
  - cbn [expansion]. rewrite set_function_touched. reflexivity.
  - cbn [expansion]. rewrite IH, set_function_touched.
    rewrite <- app_assoc. f_equal.
    rewrite (seq_S (S id) 0), rev_app_distr. reflexivity.
Qed.

(** From here on the expansion is used through the lemmas above only. *)
#[local] Opaque expansion.

Lemma run_once_uid st : uid (run_once st) = uid st.
Proof.
  unfold run_once. destruct (once st); [reflexivity|].
  rewrite mark_once_uid. apply expansion_uid.
Qed.

Lemma run_once_once st : once (run_once st) = true.
Proof.
  unfold run_once. destruct (once st) eqn:E; [exact E | reflexivity].
Qed.

Lemma run_once_payload st j :
  functionData (cell (run_once st) j) = functionData (cell st j) /\
  data (cell (run_once st) j) = data (cell st j).
Proof.
  unfold run_once. destruct (once st); [split; reflexivity|].
  rewrite cell_mark_once. apply expansion_payload.
Qed.


Lemma initial_settled : settled initial.
Proof. intros H. discriminate H. Qed.

Lemma run_once_expanded st : settled st -> expanded (run_once st).
Proof.
  intros Hs. unfold run_once. destruct (once st) eqn:E.
  - apply Hs. exact E.
  - intros j Hj. rewrite cell_mark_once, expansion_function.
    rewrite decide_True by lia. reflexivity.
Qed.

(** *** One registration *)

Lemma Wrap_uid fd d st : uid (snd (Wrap fd d st)) = uid st + 1.
Proof.
  unfold Wrap. cbn [snd]. unfold bump_uid. cbn [uid].
  rewrite touch_uid, set_data_uid, set_functionData_uid, run_once_uid.
  reflexivity.
Qed.

Lemma Wrap_once fd d st : once (snd (Wrap fd d st)) = true.
Proof.
  unfold Wrap. cbn [snd]. unfold bump_uid. cbn [once].
  rewrite touch_once, set_data_once, set_functionData_once.
  apply run_once_once.
Qed.

(** The cells after a call of [Wrap]: the pair sits in [map[uid]], the rest
    of the table is as the expanded table was. *)
Lemma Wrap_cell fd d st j :
  cell (snd (Wrap fd d st)) j =
  if decide (uid st = j)
  then mkMap d fd (function (cell (run_once st) j))
  else cell (run_once st) j.
Proof.
  unfold Wrap. cbn [snd].
  rewrite cell_bump_uid, cell_touch, set_functionData_uid.
  rewrite set_data_cell, !set_functionData_cell, !run_once_uid.
  destruct (decide (uid st = j)) as [<-|Hne]; [|reflexivity].
  rewrite !decide_True by reflexivity. reflexivity.
Qed.

Lemma Wrap_returns fd d st :
  fst (Wrap fd d st) = function (cell (run_once st) (uid st)).
Proof.
  unfold Wrap. cbn [fst].
  rewrite touch_uid, cell_touch, set_data_uid, set_functionData_uid.
  rewrite set_data_cell, !set_functionData_cell, !run_once_uid.
  rewrite !decide_True by reflexivity. reflexivity.
Qed.

Lemma Wrap_touched fd d st :
  touched (snd (Wrap fd d st)) =
  touched (run_once st) ++ [uid st; uid st; uid st].
Proof.
  unfold Wrap. cbn [snd]. unfold bump_uid. cbn [touched].
  rewrite touch_touched, set_data_uid, set_data_touched.
  rewrite set_functionData_uid, set_functionData_touched.
  rewrite run_once_uid, <- !app_assoc. reflexivity.
Qed.

Lemma Wrap_settled fd d st : settled st -> settled (snd (Wrap fd d st)).
Proof.
  intros Hs _ j Hj. rewrite Wrap_cell.
  pose proof (run_once_expanded st Hs j Hj) as Hp.
  destruct (decide (uid st = Z.of_nat j)); [cbn [function]|]; exact Hp.
Qed.

(** *** A sequence of registrations *)

Lemma Wrap_all_cons fd d rest st :
  Wrap_all ((fd, d) :: rest) st =
  (fst (Wrap fd d st) :: fst (Wrap_all rest (snd (Wrap fd d st))),
   snd (Wrap_all rest (snd (Wrap fd d st)))).
Proof.
  cbn [Wrap_all]. destruct (Wrap fd d st) as [f st1]. cbn [fst snd].
  destruct (Wrap_all rest st1) as [fs st2]. reflexivity.
Qed.

(** Registrations from a state with counter [uid st]: the [k]-th of them
    gets entry point [Wrapper<uid st + k>], its pair stays in slot
    [uid st + k], and the slots below [uid st] keep their pairs. *)
Lemma Wrap_all_spec : forall regs st,
  settled st -> 0 <= uid st ->
  uid st + Z.of_nat (length regs) <= Z.of_nat BRIDGE_MAX_WRAPPERS ->
  uid (snd (Wrap_all regs st)) = uid st + Z.of_nat (length regs) /\
  settled (snd (Wrap_all regs st)) /\
  (forall k : nat, (k < length regs)%nat ->
     fst (Wrap_all regs st) !! k
     = Some (Wrapper_instance (Z.to_nat (uid st) + k))) /\
  (forall (k : nat) fd d, regs !! k = Some (fd, d) ->
     functionData (cell (snd (Wrap_all regs st)) (uid st + Z.of_nat k)) = fd /\
     data (cell (snd (Wrap_all regs st)) (uid st + Z.of_nat k)) = d) /\
  (forall j, j < uid st ->
     functionData (cell (snd (Wrap_all regs st)) j) = functionData (cell st j) /\
     data (cell (snd (Wrap_all regs st)) j) = data (cell st j)).
Proof.
  induction regs as [|[fd d] rest IH]; intros st Hs Hu Hlen.
  - cbn [Wrap_all fst snd length].
    split; [lia|]. split; [assumption|]. split; [|split].
    + intros k Hk. lia.
    + intros k fd d Hk. discriminate Hk.
    + intros j Hj. split; reflexivity.
  - rewrite Wrap_all_cons. cbn [fst snd]. cbn [length] in Hlen.
    set (st1 := snd (Wrap fd d st)) in *.
    assert (Hu1 : uid st1 = uid st + 1) by apply Wrap_uid.
    assert (Hs1 : settled st1) by (apply Wrap_settled, Hs).
    destruct (IH st1 Hs1) as (Huid & Hset & Hfs & Hnew & Hold); try lia.
    split; [cbn [length]; lia|]. split; [exact Hset|].
    split; [|split].
    + intros [|k] Hk.
      * cbn [lookup list_lookup]. rewrite Wrap_returns.
        rewrite Nat.add_0_r. f_equal.
        pose proof (run_once_expanded st Hs (Z.to_nat (uid st))) as He.
        rewrite Z2Nat.id in He by assumption. apply He.
        unfold BRIDGE_MAX_WRAPPERS in *. lia.
      * cbn [length] in Hk.
        etransitivity; [apply (Hfs k); lia|]. f_equal. f_equal. lia.
    + intros [|k] fd' d' Hk.
      * cbn in Hk. injection Hk as <- <-.
        rewrite Z.add_0_r.
        destruct (Hold (uid st)) as [-> ->]; [lia|].
        subst st1. rewrite Wrap_cell, decide_True by reflexivity.
        split; reflexivity.
      * cbn in Hk.
        replace (uid st + Z.of_nat (S k)) with (uid st1 + Z.of_nat k) by lia.
        apply Hnew, Hk.
    + intros j Hj. destruct (Hold j) as [-> ->]; [lia|].
      subst st1. rewrite Wrap_cell, decide_False by lia.
      apply run_once_payload.
Qed.

(** *** Calling the entry points *)


Lemma invoke_dispatch f st : fst (invoke f st) = dispatch st f.
Proof. destruct f; reflexivity. Qed.

Lemma invoke_map f st : map (snd (invoke f st)) = map st.
Proof. destruct f; reflexivity. Qed.

Lemma dispatch_map st st' f : map st = map st' -> dispatch st f = dispatch st' f.
Proof.
  intros E. destruct f as [|id]; [reflexivity|].
  unfold dispatch, cell. rewrite E. reflexivity.
Qed.

Lemma invoke_all_cons f rest st :
  invoke_all (f :: rest) st =
  (fst (invoke f st) :: fst (invoke_all rest (snd (invoke f st))),
   snd (invoke_all rest (snd (invoke f st)))).
Proof.
  cbn [invoke_all]. destruct (invoke f st) as [c st1]. cbn [fst snd].
  destruct (invoke_all rest st1) as [cs st2]. reflexivity.
Qed.

(** Calling entry points changes no cell, so each call of a sequence is
    the one its entry point makes on its own. *)
Lemma invoke_all_dispatch : forall fs st,
  fst (invoke_all fs st) = List.map (dispatch st) fs /\
  map (snd (invoke_all fs st)) = map st.
Proof.
  induction fs as [|f rest IH]; intros st; [split; reflexivity|].
  rewrite invoke_all_cons. cbn [fst snd List.map].
  destruct (IH (snd (invoke f st))) as [-> ->].
  rewrite invoke_dispatch, invoke_map. split; [|reflexivity].
  f_equal. apply List.map_ext. intros g.
  apply dispatch_map, invoke_map.
Qed.

(** The indices a call of an entry point uses. *)
Lemma invoke_touched f st :
  touched (snd (invoke f st)) =
  touched st ++
  match f with
  | null => []
  | Wrapper_instance id => [Z.of_nat id; Z.of_nat id]
  end.
Proof.
  destruct f as [|id]; cbn.
  - rewrite app_nil_r. reflexivity.
  - rewrite <- app_assoc. reflexivity.
Qed.

(** The entry points a valid order selects, and what they call. *)
Lemma chosen_entry_points (fs : list Function) (n : nat) (order : list nat) :
  (forall k : nat, (k < n)%nat -> fs !! k = Some (Wrapper_instance k)) ->
  Forall (fun k => (k < n)%nat) order ->
  omap (fun k => fs !! k) order = List.map Wrapper_instance order.
Proof.
  intros Hfs Ho. induction Ho as [|k order Hk _ IH]; [reflexivity|].
  simpl. rewrite (Hfs k Hk). f_equal. exact IH.
Qed.

(** *** The indices used after the expansion *)

Lemma Wrap_all_touched : forall regs st,
  once st = true -> 0 <= uid st ->
  uid st + Z.of_nat (length regs) <= Z.of_nat BRIDGE_MAX_WRAPPERS ->
  exists used,
    touched (snd (Wrap_all regs st)) = touched st ++ used /\
    Forall in_table used.
Proof.
  induction regs as [|[fd d] rest IH]; intros st Ho Hu Hlen.
  - exists []. cbn. rewrite app_nil_r. split; [reflexivity|constructor].
  - rewrite Wrap_all_cons. cbn [snd]. cbn [length] in Hlen.
    destruct (IH (snd (Wrap fd d st))) as (used & E & Hused).
    + apply Wrap_once.
    + rewrite Wrap_uid. lia.
    + rewrite Wrap_uid. lia.
    + exists ([uid st; uid st; uid st] ++ used). split.
      * rewrite E, Wrap_touched. unfold run_once. rewrite Ho.
        rewrite <- app_assoc. reflexivity.
      * apply Forall_app. split; [|exact Hused].
        assert (in_table (uid st)) by (unfold in_table; lia).
        repeat (constructor; [assumption|]). constructor.
Qed.

Lemma invoke_all_touched : forall (order : list nat) st,
  Forall (fun k => (k < BRIDGE_MAX_WRAPPERS)%nat) order ->
  exists used,
    touched (snd (invoke_all (List.map Wrapper_instance order) st))
    = touched st ++ used /\
    Forall in_table used.
Proof.
  induction order as [|k order IH]; intros st Ho.
  - exists []. cbn. rewrite app_nil_r. split; [reflexivity|constructor].
  - cbn [List.map]. rewrite invoke_all_cons. cbn [snd].
    apply Forall_cons in Ho as [Hk Ho].
    destruct (IH (snd (invoke (Wrapper_instance k) st)) Ho) as (used & E & Hused).
    exists ([Z.of_nat k; Z.of_nat k] ++ used). split.
    + rewrite E, invoke_touched, <- app_assoc. reflexivity.
    + apply Forall_app. split; [|exact Hused].
      assert (in_table (Z.of_nat k)) by (unfold in_table; lia).
      repeat (constructor; [assumption|]). constructor.
Qed.

Lemma first_Wrap_touched fd d :
  touched (snd (Wrap fd d initial)) =
  List.map Z.of_nat (rev (seq 0 (S BRIDGE_MAX_WRAPPERS))) ++ [0; 0; 0].
Proof.
  rewrite Wrap_touched. unfold run_once. cbn [once initial].
  rewrite mark_once_touched, expansion_touched. reflexivity.
Qed.

(** X1.  Apart from the very first index of the expansion, every index used
    by at most [BRIDGE_MAX_WRAPPERS] registrations followed by calls of the
    entry points they returned lies in the table. *)
Lemma indices_after_the_first_in_table (regs : list (Z * Z)) (order : list nat) :
  regs <> [] ->
  (length regs <= BRIDGE_MAX_WRAPPERS)%nat ->
  Forall (fun k => (k < length regs)%nat) order ->
  exists used,
    touched (snd (invoke_all (List.map Wrapper_instance order)
                    (snd (Wrap_all regs initial))))
    = Z.of_nat BRIDGE_MAX_WRAPPERS :: used /\
    Forall in_table used.
Proof.
  intros Hne Hlen Ho. destruct regs as [|[fd d] rest]; [congruence|].
  cbn [length] in *.
  destruct (invoke_all_touched order (snd (Wrap_all ((fd, d) :: rest) initial)))
    as (used2 & E2 & H2).
  { eapply Forall_impl; [exact Ho|]. cbn. intros k Hk. lia. }
  rewrite Wrap_all_cons in E2 |- *. cbn [snd] in E2 |- *.
  destruct (Wrap_all_touched rest (snd (Wrap fd d initial)))
    as (used1 & E1 & H1).
  { apply Wrap_once. }
  { rewrite Wrap_uid. cbn. lia. }
  { rewrite Wrap_uid. cbn [uid initial]. lia. }
  rewrite E2, E1, first_Wrap_touched.
  exists (List.map Z.of_nat (rev (seq 0 BRIDGE_MAX_WRAPPERS))
            ++ [0; 0; 0] ++ used1 ++ used2).
  split; [reflexivity|].
  apply Forall_app. split; [|apply Forall_app; split;
                             [|apply Forall_app; split; assumption]].
  - unfold in_table, BRIDGE_MAX_WRAPPERS. cbn.
    repeat (constructor; [lia|]). constructor.
  - unfold in_table, BRIDGE_MAX_WRAPPERS.
    repeat (constructor; [lia|]). constructor.
Qed.

(** C3.  For at most [BRIDGE_MAX_WRAPPERS] registrations on the statics as
    the program starts with them: before the [k]-th call of [Wrap] (counting
    from 0) the counter [uid] is [k], so it starts at 0, grows by exactly one
    per call and neither decreases nor wraps; that call stores its callback
    and token in slot [k], where they still are after the last registration;
    and the entry points returned, called in any order (and any number of
    times), each call the callback of their own registration with its
    token. *)
Theorem Wrap_slots_and_entry_points (regs : list (Z * Z)) :
  (length regs <= BRIDGE_MAX_WRAPPERS)%nat ->
  let fs := fst (Wrap_all regs initial) in
  let st := snd (Wrap_all regs initial) in
  (forall k : nat, (k <= length regs)%nat ->
     uid (snd (Wrap_all (take k regs) initial)) = Z.of_nat k) /\
  (forall (k : nat) fd d, regs !! k = Some (fd, d) ->
     let before := snd (Wrap_all (take k regs) initial) in
     let after := snd (Wrap fd d before) in
     uid after = uid before + 1 /\
     functionData (cell after (Z.of_nat k)) = fd /\
     data (cell after (Z.of_nat k)) = d /\
     functionData (cell st (Z.of_nat k)) = fd /\
     data (cell st (Z.of_nat k)) = d) /\
  (forall order : list nat,
     Forall (fun k => (k < length regs)%nat) order ->
     fst (invoke_all (omap (fun k => fs !! k) order) st)
     = List.map (fun k => (fun p => mkCall (fst p) (snd p)) <$> regs !! k) order).
Proof.
  intros Hlen fs st.
  assert (Hcount : forall k : nat, (k <= length regs)%nat ->
            uid (snd (Wrap_all (take k regs) initial)) = Z.of_nat k).
  { intros k Hk.
    destruct (Wrap_all_spec (take k regs) initial initial_settled)
      as (Huid & _).
    - cbn. lia.
    - rewrite length_take_le by exact Hk. cbn [uid initial]. lia.
    - rewrite Huid, length_take_le by exact Hk. cbn [uid initial]. lia. }
  destruct (Wrap_all_spec regs initial initial_settled)
    as (Huid & _ & Hfs & Hnew & _).
  { cbn. lia. }
  { cbn [uid initial]. lia. }
  fold st in Huid, Hnew. fold fs in Hfs.
  cbn [uid initial] in Huid, Hnew, Hfs.
  split; [exact Hcount|]. split.
  - intros k fd d Hk before after.
    assert (Hlt : (k < length regs)%nat) by (apply lookup_lt_is_Some; eauto).
    assert (Hb : uid before = Z.of_nat k) by (apply Hcount; lia).
    specialize (Hnew k fd d Hk). rewrite Z.add_0_l in Hnew.
    split; [apply Wrap_uid|].
    subst after. rewrite Wrap_cell, decide_True by exact Hb.
    split; [reflexivity|]. split; [reflexivity|]. exact Hnew.
  - intros order Ho.
    rewrite (chosen_entry_points fs (length regs) order Hfs Ho).
    destruct (invoke_all_dispatch (List.map Wrapper_instance order) st) as [-> _].
    rewrite List.map_map.
    induction Ho as [|k order Hk _ IH]; [reflexivity|].
    cbn [List.map]. rewrite IH. f_equal.
    destruct (lookup_lt_is_Some_2 regs k Hk) as [[fd d] Hkd].
    rewrite Hkd. specialize (Hnew k fd d Hkd).
    rewrite Z.add_0_l in Hnew. destruct Hnew as [Hf Hd].
    cbn [dispatch fmap option_fmap option_map fst snd].
    rewrite Hf, Hd. reflexivity.
Qed.

(** Three registrations, their entry points called out of order and one of
    them twice. *)
Lemma Wrap_slots_and_entry_points_witness :
  (length three_registrations <= BRIDGE_MAX_WRAPPERS)%nat /\
  fst (invoke_all
         (omap (fun k => fst (Wrap_all three_registrations initial) !! k)
               [2; 0; 1; 2]%nat)
         (snd (Wrap_all three_registrations initial)))
  = [Some (mkCall 4096 33); Some (mkCall 4096 11);
     Some (mkCall 4100 22); Some (mkCall 4096 33)].
Proof.
  assert (H : (length three_registrations <= BRIDGE_MAX_WRAPPERS)%nat)
    by (vm_compute; lia).
  split; [exact H|].
  destruct (Wrap_slots_and_entry_points _ H) as (_ & _ & Horder).
  apply (Horder [2; 0; 1; 2]%nat).
  repeat constructor.
Defined.

(** C4.  The first call of [Wrap], whatever its arguments, runs
    [expansion<BRIDGE_MAX_WRAPPERS>], whose first store is to
    [map[BRIDGE_MAX_WRAPPERS]]: the indices it uses are 8, 7, ..., 0 and then
    three times slot 0, and 8 is not an index of [map[BRIDGE_MAX_WRAPPERS]]. *)
Theorem first_Wrap_indexes_past_the_table (fd d : Z) :
  touched (snd (Wrap fd d initial)) = [8; 7; 6; 5; 4; 3; 2; 1; 0; 0; 0; 0] /\
  In (Z.of_nat BRIDGE_MAX_WRAPPERS) (touched (snd (Wrap fd d initial))) /\
  ~ in_table (Z.of_nat BRIDGE_MAX_WRAPPERS).
Proof.
  rewrite first_Wrap_touched. split; [reflexivity|]. split.
  - left. reflexivity.
  - unfold in_table. lia.
Qed.

End Trampoline.

(** ** The tracker *)

Section Tracker.
Import bridge.
Context {T : Target}.

Arguments uint32 : simpl never.

Lemma INT_MAX_pos : 1 <= INT_MAX.
Proof. pose proof INT_MAX_min. lia. Qed.

(** *** The catch-up loop *)

(** With [n] toggles pending and the counter able to reach [change], the
    loop runs [n] times. *)
Lemma catch_up_replay listener change : forall (n fuel : nat) c state,
  change = c + Z.of_nat n -> change <= INT_MAX -> (n < fuel)%nat ->
  catch_up fuel listener change c state
  = Done (negated n state, replay listener n state).
Proof.
  induction n as [|n IH]; intros fuel c state Hc Hmax Hfuel;
    (destruct fuel as [|fuel]; [lia|]); cbn [catch_up].
  - replace (c <? change) with false by (symmetry; apply Z.ltb_ge; lia).
    reflexivity.
  - replace (c <? change) with true by (symmetry; apply Z.ltb_lt; lia).
    replace (c + 1 <=? INT_MAX) with true by (symmetry; apply Z.leb_le; lia).
    rewrite (IH fuel (c + 1) (negb state)) by lia.
    rewrite negated_shift, replay_S. reflexivity.
Qed.

(** With more toggles pending than an [int] can count, the increment of
    the counter at [INT_MAX] is reached. *)
Lemma catch_up_overflow listener change : forall (k fuel : nat) c state,
  INT_MAX < change -> 0 <= c -> c + Z.of_nat k = INT_MAX -> (k < fuel)%nat ->
  catch_up fuel listener change c state = Undefined.
Proof.
  induction k as [|k IH]; intros fuel c state Hbig Hc Hk Hfuel;
    (destruct fuel as [|fuel]; [lia|]); cbn [catch_up];
    replace (c <? change) with true by (symmetry; apply Z.ltb_lt; lia).
  - replace (c + 1 <=? INT_MAX) with false by (symmetry; apply Z.leb_gt; lia).
    reflexivity.
  - replace (c + 1 <=? INT_MAX) with true by (symmetry; apply Z.leb_le; lia).
    rewrite (IH fuel (c + 1) (negb state)) by lia. reflexivity.
Qed.

(** The fuel [Step] hands to the loop is never used up. *)
Lemma catch_up_fuel listener change state :
  0 <= change ->
  catch_up (S (Z.to_nat change)) listener change 0 state <> OutOfFuel.
Proof.
  intros Hc. destruct (Z_le_gt_dec change INT_MAX) as [Hle|Hgt].
  - rewrite (catch_up_replay listener change (Z.to_nat change)); [discriminate| | |]; lia.
  - pose proof INT_MAX_min.
    rewrite (catch_up_overflow listener change (Z.to_nat INT_MAX)); [discriminate| | | |]; lia.
Qed.

(** *** [Step] *)

Lemma active_handler_function this self :
  negb (function self =? 0) = true ->
  active_handler this self = call_function (function self) this.
Proof. intros H. unfold active_handler. rewrite H. reflexivity. Qed.

Lemma active_handler_functionData this self :
  negb (function self =? 0) = false ->
  active_handler this self
  = fun s => call_functionData (functionData self) this s (data self).
Proof. intros H. unfold active_handler. rewrite H. reflexivity. Qed.


Lemma Step_reconcile this reg self :
  Step this reg self =
  if interruptible self then
    reconcile this self (asyncCount self) (uint32 (asyncCount self - syncCount self))
  else if Bool.eqb (raw_level reg (mask self)) (syncState self) then
    reconcile this self (syncCount self) 0
  else reconcile this self (uint32 (syncCount self + 1)) 1.
Proof.
  unfold Step, reconcile, raw_level.
  destruct (interruptible self).
  - destruct (negb (function self =? 0)) eqn:Hf.
    + rewrite (active_handler_function this self Hf). reflexivity.
    + rewrite (active_handler_functionData this self Hf). reflexivity.
  - destruct (Bool.eqb _ _); [reflexivity|].
    destruct (negb (function self =? 0)) eqn:Hf.
    + rewrite (active_handler_function this self Hf). reflexivity.
    + rewrite (active_handler_functionData this self Hf). reflexivity.
Qed.

Lemma reconcile_replay this self count (n : nat) :
  (0 < n)%nat -> Z.of_nat n <= INT_MAX ->
  reconcile this self count (Z.of_nat n)
  = Done (with_syncCount count (with_syncState (negated n (syncState self)) self),
          replay (active_handler this self) n (syncState self)).
Proof.
  intros Hn Hmax. unfold reconcile.
  replace (0 <? Z.of_nat n) with true by (symmetry; apply Z.ltb_lt; lia).
  rewrite (catch_up_replay _ _ n) by lia. reflexivity.
Qed.

Lemma reconcile_overflow this self count change :
  INT_MAX < change -> reconcile this self count change = Undefined.
Proof.
  intros Hbig. pose proof INT_MAX_min. unfold reconcile.
  replace (0 <? change) with true by (symmetry; apply Z.ltb_lt; lia).
  rewrite (catch_up_overflow _ _ (Z.to_nat INT_MAX)) by lia. reflexivity.
Qed.

(** [Step] returns or is undefined; the fuel of the model plays no part. *)
Lemma Step_returns_or_undefined this reg self : Step this reg self <> OutOfFuel.
Proof.
  assert (H : forall count change, 0 <= change ->
            reconcile this self count change <> OutOfFuel).
  { intros count change Hc. unfold reconcile.
    destruct (0 <? change); [|discriminate].
    pose proof (catch_up_fuel (active_handler this self) change (syncState self) Hc).
    destruct (catch_up _ _ _ _ _) as [[final made]| |]; congruence. }
  rewrite Step_reconcile.
  destruct (interruptible self).
  - apply H. apply uint32_is_uint32.
  - destruct (Bool.eqb _ _); apply H; lia.
Qed.

(** Interrupt-driven mode with [n] toggles pending, [n] within the range of
    the loop counter: [n] calls, the [i]-th with the pre-[Step] [syncState]
    negated [i] times; afterwards [syncCount] is the snapshot. *)
Lemma Step_catches_up this reg self (n : nat) :
  interruptible self = true -> counters_ok self ->
  asyncCount self - syncCount self = Z.of_nat n ->
  (0 < n)%nat -> Z.of_nat n <= INT_MAX ->
  Step this reg self
  = Done (with_syncCount (asyncCount self)
            (with_syncState (negated n (syncState self)) self),
          replay (active_handler this self) n (syncState self)).
Proof.
  intros Hi [Ha Hs] Hn Hpos Hmax.
  rewrite Step_reconcile, Hi, Hn.
  rewrite uint32_small by (unfold is_uint32 in *; lia).
  apply reconcile_replay; assumption.
Qed.

(** Interrupt-driven mode with nothing pending. *)
Lemma Step_nothing_pending this reg self :
  interruptible self = true -> asyncCount self = syncCount self ->
  Step this reg self = Done (self, []).
Proof.
  intros Hi E. rewrite Step_reconcile, Hi, E, Z.sub_diag. reflexivity.
Qed.

(** Polling-only mode. *)
Lemma Step_polls_same this reg self :
  interruptible self = false -> raw_level reg (mask self) = syncState self ->
  Step this reg self = Done (self, []).
Proof.
  intros Hi E. rewrite Step_reconcile, Hi, E, Bool.eqb_reflx. reflexivity.
Qed.

Lemma Step_polls_changed this reg self :
  interruptible self = false -> raw_level reg (mask self) <> syncState self ->
  Step this reg self
  = Done (with_syncCount (uint32 (syncCount self + 1))
            (with_syncState (raw_level reg (mask self)) self),
          [active_handler this self (raw_level reg (mask self))]).
Proof.
  intros Hi Hne. rewrite Step_reconcile, Hi.
  replace (Bool.eqb (raw_level reg (mask self)) (syncState self)) with false
    by (symmetry; apply Bool.eqb_false_iff; exact Hne).
  rewrite (reconcile_replay this self _ 1) by (pose proof INT_MAX_pos; lia).
  assert (E : negb (syncState self) = raw_level reg (mask self))
    by (destruct (syncState self) eqn:E1, (raw_level reg (mask self)) eqn:E2;
        cbn; congruence).
  cbn [negated Nat.iter nat_rect replay seq List.map]. rewrite E. reflexivity.
Qed.

(** *** Construction *)

Lemma DigitalInput_new_interrupt this pin function functionData data reg mem w :
  0 <= digitalPinToInterrupt pin ->
  fst (DigitalInput_new this pin function functionData data reg mem w)
  = mkDigitalInput (portInputRegister_digitalPinToPort pin)
      (digitalPinToBitMask pin) function functionData data pin true
      1 (raw_level reg (digitalPinToBitMask pin))
      0 (negb (raw_level reg (digitalPinToBitMask pin))).
Proof.
  intros Hi. unfold DigitalInput_new.
  replace (0 <=? digitalPinToInterrupt pin) with true
    by (symmetry; apply Z.leb_le; exact Hi).
  destruct (meta.Wrap OnChange_entry this (wrappers w)). reflexivity.
Qed.

Lemma DigitalInput_new_polling this pin function functionData data reg mem w :
  digitalPinToInterrupt pin < 0 ->
  DigitalInput_new this pin function functionData data reg mem w
  = (mkDigitalInput (portInputRegister_digitalPinToPort pin)
       (digitalPinToBitMask pin) function functionData data pin false
       (asyncCount mem) (asyncState mem)
       0 (negb (raw_level reg (digitalPinToBitMask pin))),
     w).
Proof.
  intros Hi. unfold DigitalInput_new.
  replace (0 <=? digitalPinToInterrupt pin) with false
    by (symmetry; apply Z.leb_gt; exact Hi).
  rewrite not_BRIDGE_READ_negates. reflexivity.
Qed.

(** In either mode the object starts with [syncState] the negation of the
    level read, the handler fields as given, and [syncCount] zero. *)
Lemma DigitalInput_new_sync this pin function functionData data reg mem w :
  let self := fst (DigitalInput_new this pin function functionData data reg mem w) in
  syncState self = negb (raw_level reg (digitalPinToBitMask pin)) /\
  syncCount self = 0 /\
  mask self = digitalPinToBitMask pin /\
  interruptible self = (0 <=? digitalPinToInterrupt pin).
Proof.
  destruct (Z_le_gt_dec 0 (digitalPinToInterrupt pin)) as [Hi|Hi].
  - cbv zeta. rewrite DigitalInput_new_interrupt by exact Hi. cbn.
    repeat split. symmetry. apply Z.leb_le. exact Hi.
  - cbv zeta. rewrite DigitalInput_new_polling by lia. cbn.
    repeat split. symmetry. apply Z.leb_gt. lia.
Qed.

(** The first [Step] after construction, the line still at the level the
    constructor read: one call, reporting that level. *)
Lemma first_Step this pin function functionData data reg mem w reg' :
  let self := fst (DigitalInput_new this pin function functionData data reg mem w) in
  let level := raw_level reg (digitalPinToBitMask pin) in
  raw_level reg' (digitalPinToBitMask pin) = level ->
  Step this reg' self
  = Done (with_syncCount 1 (with_syncState level self),
          [active_handler this self level]).
Proof.
  intros self level Hsame. subst self.
  destruct (Z_le_gt_dec 0 (digitalPinToInterrupt pin)) as [Hi|Hi].
  - rewrite DigitalInput_new_interrupt by exact Hi.
    rewrite (Step_catches_up _ _ _ 1);
      try reflexivity; try lia; try (pose proof INT_MAX_pos; cbn; lia).
    + cbn. fold level. rewrite negb_involutive. reflexivity.
    + split; cbn; unfold is_uint32, UINT32_MOD; lia.
  - rewrite DigitalInput_new_polling by lia. cbn [fst].
    rewrite Step_polls_changed; cbn [mask syncState interruptible syncCount];
      try reflexivity.
    + rewrite Hsame. fold level. reflexivity.
    + rewrite Hsame. fold level. destruct level; discriminate.
Qed.

(** C1 (the code departs from the claim).  Interrupt-driven mode with more
    toggles pending than [INT_MAX]: the loop counter [c] is an [int] while
    [change] is a [uint32_t], so the increment [c++] at [INT_MAX] is reached
    and the run of [Step] is undefined instead of making [n] calls.  For
    [n <= INT_MAX] the claim holds, see [Step_catches_up]. *)
Theorem Step_loop_counter_overflows this reg self :
  interruptible self = true -> counters_ok self ->
  INT_MAX < asyncCount self - syncCount self ->
  Step this reg self = Undefined.
Proof.
  intros Hi [Ha Hs] Hbig. pose proof INT_MAX_min.
  rewrite Step_reconcile, Hi. apply reconcile_overflow.
  rewrite uint32_small; unfold is_uint32 in *; lia.
Qed.

(** C7.  Construction on a pin with an interrupt sets [asyncCount] to 1,
    [asyncState] to the level read and [syncState] to its negation, so the
    first [Step], with no run of the interrupt routine in between, makes
    exactly one call and reports the level the line started with. *)
Theorem interrupt_mode_first_Step this pin function functionData data reg mem w reg' :
  0 <= digitalPinToInterrupt pin ->
  let self := fst (DigitalInput_new this pin function functionData data reg mem w) in
  let level := raw_level reg (digitalPinToBitMask pin) in
  interruptible self = true /\
  asyncCount self = 1 /\
  asyncState self = level /\
  syncState self = negb (asyncState self) /\
  syncCount self = 0 /\
  Step this reg' self
  = Done (with_syncCount 1 (with_syncState level self),
          [active_handler this self level]).
Proof.
  intros Hi self level. subst self.
  rewrite DigitalInput_new_interrupt by exact Hi.
  cbn [interruptible asyncCount asyncState syncState syncCount].
  repeat (split; [reflexivity|]).
  rewrite (Step_catches_up _ _ _ 1);
    try reflexivity; try lia; try (pose proof INT_MAX_pos; cbn; lia).
  - cbn. fold level. rewrite negb_involutive. reflexivity.
  - split; cbn; unfold is_uint32, UINT32_MOD; lia.
Qed.

(** C2 (amended).  In either mode the first [Step] after construction, the
    line still at the level the constructor read, makes exactly one call,
    and the state it passes is that level itself. *)
Theorem first_Step_reports_the_initial_level
    this pin function functionData data reg mem w reg' :
  let self := fst (DigitalInput_new this pin function functionData data reg mem w) in
  let level := raw_level reg (digitalPinToBitMask pin) in
  raw_level reg' (digitalPinToBitMask pin) = level ->
  exists self',
    Step this reg' self = Done (self', [active_handler this self level]) /\
    syncState self' = level.
Proof.
  intros self level Hsame.
  exists (with_syncCount 1 (with_syncState level self)).
  split; [|reflexivity].
  apply first_Step. exact Hsame.
Qed.

(** C8.  A run of the interrupt routine stores the level read in
    [asyncState] and adds one to [asyncCount] (in [uint32_t] arithmetic),
    whatever [asyncState] held before, and leaves every other member as it
    was. *)
Theorem OnChange_effect reg self :
  let self' := OnChange reg self in
  asyncState self' = raw_level reg (mask self) /\
  asyncCount self' = (asyncCount self + 1) mod UINT32_MOD /\
  syncState self' = syncState self /\
  syncCount self' = syncCount self /\
  function self' = function self /\
  functionData self' = functionData self /\
  data self' = data self /\
  pin self' = pin self /\
  port self' = port self /\
  mask self' = mask self /\
  interruptible self' = interruptible self.
Proof. cbv zeta. repeat split. Qed.

(** *** Bursts *)

(** Two edges after the first report on an interrupt-driven line that
    started low: two calls, high then low. *)
Lemma interrupt_burst this pin function functionData data reg0 reg1 reg2 reg3 mem w :
  0 <= digitalPinToInterrupt pin ->
  raw_level reg0 (digitalPinToBitMask pin) = false ->
  let driven := fst (DigitalInput_new this pin function functionData data reg0 mem w) in
  let driven1 := with_syncCount 1 (with_syncState false driven) in
  Step this reg0 driven = Done (driven1, [active_handler this driven false]) /\
  Step this reg3 (OnChange reg2 (OnChange reg1 driven1))
  = Done (with_syncCount 3
            (with_syncState false (OnChange reg2 (OnChange reg1 driven1))),
          [active_handler this driven true; active_handler this driven false]).
Proof.
  intros Hi Hlow driven driven1.
  pose proof (first_Step this pin function functionData data reg0 mem w reg0
                eq_refl) as H1.
  cbv zeta in H1. fold driven in H1. rewrite Hlow in H1. fold driven1 in H1.
  split; [exact H1|].
  assert (Hd : syncState driven1 = false /\ syncCount driven1 = 1 /\
               asyncCount driven1 = 1 /\ interruptible driven1 = true).
  { subst driven1 driven. rewrite DigitalInput_new_interrupt by exact Hi.
    cbn. repeat split. }
  destruct Hd as (Hs & Hc & Ha & Hint).
  set (burst := OnChange reg2 (OnChange reg1 driven1)).
  assert (Hb : syncState burst = false /\ syncCount burst = 1 /\
               asyncCount burst = 3 /\ interruptible burst = true).
  { subst burst. unfold OnChange, with_async.
    cbn [syncState syncCount asyncCount interruptible].
    rewrite Ha. repeat split; assumption. }
  destruct Hb as (Hbs & Hbc & Hba & Hbi).
  rewrite (Step_catches_up this reg3 burst 2); try assumption;
    try (pose proof INT_MAX_min; cbn; lia).
  - rewrite Hbs, Hba. reflexivity.
  - unfold counters_ok. rewrite Hba, Hbc.
    split; unfold is_uint32, UINT32_MOD; lia.
  - rewrite Hba, Hbc. reflexivity.
Qed.

(** C6 (amended).  A [Step] in polling-only mode makes at most one call:
    none, and no member changes, when the level read equals [syncState];
    otherwise exactly one, after which [syncState] is the level read and
    [syncCount] is one more (in [uint32_t] arithmetic).  So on a polling-only
    line that started low and is low again at the next poll, having toggled
    twice in between, that poll makes no call at all: the burst is lost, not
    coalesced.  On an interrupt-driven line the same burst yields two calls,
    high then low. *)
Theorem polling_Step_and_bursts
    this pin_p pin_i function functionData data mem w reg0 reg1 reg2 :
  digitalPinToInterrupt pin_p < 0 ->
  0 <= digitalPinToInterrupt pin_i ->
  raw_level reg0 (digitalPinToBitMask pin_p) = false ->
  raw_level reg2 (digitalPinToBitMask pin_p) = false ->
  raw_level reg0 (digitalPinToBitMask pin_i) = false ->
  (forall reg self, interruptible self = false ->
     (raw_level reg (mask self) = syncState self ->
        Step this reg self = Done (self, [])) /\
     (raw_level reg (mask self) <> syncState self ->
        Step this reg self
        = Done (with_syncCount ((syncCount self + 1) mod UINT32_MOD)
                  (with_syncState (raw_level reg (mask self)) self),
                [active_handler this self (raw_level reg (mask self))]))) /\
  (let polled := fst (DigitalInput_new this pin_p function functionData data reg0 mem w) in
   exists polled1,
     Step this reg0 polled = Done (polled1, [active_handler this polled false]) /\
     Step this reg2 polled1 = Done (polled1, [])) /\
  (let driven := fst (DigitalInput_new this pin_i function functionData data reg0 mem w) in
   exists driven1 driven3,
     Step this reg0 driven = Done (driven1, [active_handler this driven false]) /\
     Step this reg2 (OnChange reg2 (OnChange reg1 driven1))
     = Done (driven3, [active_handler this driven true;
                       active_handler this driven false])).
Proof.
  intros Hp Hi Hp0 Hp2 Hi0. split; [|split].
  - intros reg self Hpoll. split.
    + apply Step_polls_same. exact Hpoll.
    + apply Step_polls_changed. exact Hpoll.
  - intros polled.
    pose proof (first_Step this pin_p function functionData data reg0 mem w
                  reg0 eq_refl) as H1.
    cbv zeta in H1. fold polled in H1. rewrite Hp0 in H1.
    exists (with_syncCount 1 (with_syncState false polled)).
    split; [exact H1|].
    apply Step_polls_same.
    + subst polled. rewrite DigitalInput_new_polling by exact Hp. reflexivity.
    + subst polled. rewrite DigitalInput_new_polling by exact Hp.
      cbn [fst mask syncState with_syncCount with_syncState]. exact Hp2.
  - intros driven.
    destruct (interrupt_burst this pin_i function functionData data
                reg0 reg1 reg2 reg2 mem w Hi Hi0) as [H1 H2].
    eexists _, _. split; [exact H1 | exact H2].
Qed.

(** *** The two counters under interleaving *)

Lemma constructed_catching_up this pin function functionData data reg mem w :
  0 <= digitalPinToInterrupt pin ->
  catching_up 0
    (constructed (fst (DigitalInput_new this pin function functionData data reg mem w))).
Proof.
  intros Hi. rewrite DigitalInput_new_interrupt by exact Hi.
  unfold catching_up, constructed. cbn. repeat split; lia.
Qed.

Lemma main_step_catching_up this k m m' :
  catching_up k m -> 1 + Z.of_nat k < UINT32_MOD -> main_step this m m' ->
  catching_up k m' /\
  syncCount (object m) <= syncCount (object m') /\
  asyncCount (object m') = asyncCount (object m).
Proof.
  intros (Hint & Ha & Hs & Hat) Hk Hstep.
  destruct Hstep as [reg m Hidle | m m' Hturn].
  - unfold enter. rewrite Hint.
    rewrite uint32_small by (unfold is_uint32; lia).
    destruct (0 <? asyncCount (object m) - syncCount (object m)) eqn:E;
      unfold catching_up; cbn [object at_]; repeat split; try assumption; lia.
  - unfold turn in Hturn.
    destruct (at_ m) as [|count change c] eqn:Em; [discriminate|].
    destruct (c <? change).
    + destruct (c + 1 <=? INT_MAX); [|discriminate].
      injection Hturn as <-.
      unfold catching_up; cbn [object at_ with_syncState interruptible
                                 asyncCount syncCount].
      repeat split; try assumption; lia.
    + injection Hturn as <-.
      unfold catching_up; cbn [object at_ with_syncCount interruptible
                                 asyncCount syncCount].
      repeat split; try assumption; lia.
Qed.

Lemma isr_step_catching_up k m m' :
  catching_up k m -> 2 + Z.of_nat k < UINT32_MOD -> isr_step m m' ->
  catching_up (S k) m' /\
  syncCount (object m') = syncCount (object m) /\
  asyncCount (object m) <= asyncCount (object m').
Proof.
  intros (Hint & Ha & Hs & Hat) Hk Hstep.
  destruct Hstep as [reg m _].
  unfold catching_up, preempt, OnChange, with_async.
  cbn [object at_ interruptible asyncCount syncCount].
  rewrite uint32_small by (unfold is_uint32; lia).
  repeat split; try assumption; try lia.
  destruct (at_ m); [exact I|lia].
Qed.

Lemma reachable_catching_up this m0 k m :
  reachable this m0 k m -> catching_up 0 m0 ->
  1 + Z.of_nat k < UINT32_MOD -> catching_up k m.
Proof.
  intros Hr H0. induction Hr as [|k m m' _ IH Hstep|k m m' _ IH Hstep]; intros Hk.
  - exact H0.
  - apply (main_step_catching_up this k m m'); auto.
  - apply (isr_step_catching_up k m m'); [apply IH| |exact Hstep]; lia.
Qed.

(** A call of [Step] that has returned stays where it is. *)
Lemma in_Step_idle this m m' : in_Step this m m' -> at_ m = Idle -> m' = m.
Proof.
  intros H Hidle. destruct H as [m _ | m m1 m' Hturn _ | reg m m' Hne _ _].
  - reflexivity.
  - unfold turn in Hturn. rewrite Hidle in Hturn. discriminate.
  - contradiction.
Qed.

(** A call of [Step] in its loop returns with [syncCount] the snapshot. *)
Lemma in_Step_looping this m m' :
  in_Step this m m' ->
  forall count change c, at_ m = Looping count change c ->
  syncCount (object m') = count.
Proof.
  induction 1 as [m Hidle | m m1 m' Hturn Hrest IH | reg m m' Hne Hint _ IH];
    intros count change c Hat.
  - congruence.
  - unfold turn in Hturn. rewrite Hat in Hturn.
    destruct (c <? change).
    + destruct (c + 1 <=? INT_MAX); [|discriminate].
      injection Hturn as <-. eapply IH. reflexivity.
    + injection Hturn as <-.
      rewrite (in_Step_idle this _ m' Hrest eq_refl). reflexivity.
  - eapply IH. exact Hat.
Qed.

Lemma Step_call_snapshot this m m' :
  interruptible (object m) = true -> counters_ok (object m) ->
  Step_call this m m' ->
  syncCount (object m') = asyncCount (object m).
Proof.
  intros Hint [Ha Hs] (Hidle & reg & Hin).
  unfold enter in Hin. rewrite Hint in Hin.
  destruct (0 <? uint32 (asyncCount (object m) - syncCount (object m))) eqn:E.
  - apply (in_Step_looping this _ m' Hin _ _ _ eq_refl).
  - rewrite (in_Step_idle this _ m' Hin eq_refl). cbn [object].
    symmetry. apply uint32_sub_zero; try assumption.
    pose proof (uint32_is_uint32 (asyncCount (object m) - syncCount (object m))) as Hu.
    apply Z.ltb_ge in E. unfold is_uint32 in Hu. lia.
Qed.

Lemma constructed_well_typed this pin function functionData data reg mem w :
  0 <= digitalPinToInterrupt pin ->
  well_typed
    (constructed (fst (DigitalInput_new this pin function functionData data reg mem w))).
Proof.
  intros Hi. rewrite DigitalInput_new_interrupt by exact Hi.
  unfold well_typed, constructed, counters_ok, is_uint32, UINT32_MOD. cbn.
  repeat split; lia.
Qed.

Lemma main_step_well_typed this m m' :
  well_typed m -> main_step this m m' -> well_typed m'.
Proof.
  intros (Hint & [Ha Hs] & Hat) Hstep.
  destruct Hstep as [reg m Hidle | m m' Hturn].
  - unfold enter. rewrite Hint.
    destruct (0 <? uint32 _);
      unfold well_typed, counters_ok; cbn [object at_]; auto.
  - unfold turn in Hturn.
    destruct (at_ m) as [|count change c] eqn:Em; [discriminate|].
    destruct (c <? change).
    + destruct (c + 1 <=? INT_MAX); [|discriminate].
      injection Hturn as <-.
      unfold well_typed, counters_ok; cbn [object at_]; auto.
    + injection Hturn as <-.
      unfold well_typed, counters_ok;
        cbn [object at_ with_syncCount interruptible asyncCount syncCount];
        auto.
Qed.

Lemma isr_step_well_typed m m' : well_typed m -> isr_step m m' -> well_typed m'.
Proof.
  intros (Hint & [Ha Hs] & Hat) Hstep. destruct Hstep as [reg m _].
  unfold well_typed, counters_ok, preempt, OnChange, with_async.
  cbn [object at_ interruptible asyncCount syncCount].
  pose proof (uint32_is_uint32 (asyncCount (object m) + 1)). auto.
Qed.

Lemma reachable_well_typed this m0 k m :
  reachable this m0 k m -> well_typed m0 -> well_typed m.
Proof.
  intros Hr H0. induction Hr as [|k m m' _ IH Hstep|k m m' _ IH Hstep].
  - exact H0.
  - apply (main_step_well_typed this m m' IH Hstep).
  - apply (isr_step_well_typed m m' IH Hstep).
Qed.

(** No step of [Step] writes [asyncCount], and the interrupt routine
    writes neither [syncCount] nor [syncState]. *)
Lemma main_step_asyncCount this m m' :
  main_step this m m' -> asyncCount (object m') = asyncCount (object m).
Proof.
  intros Hstep. destruct Hstep as [reg m Hidle | m m' Hturn].
  - unfold enter.
    destruct (interruptible (object m));
      [|destruct (Bool.eqb _ _)];
      match goal with |- context [0 <? ?c] => destruct (0 <? c) end;
      reflexivity.
  - unfold turn in Hturn.
    destruct (at_ m) as [|count change c]; [discriminate|].
    destruct (c <? change).
    + destruct (c + 1 <=? INT_MAX); [|discriminate].
      injection Hturn as <-. reflexivity.
    + injection Hturn as <-. reflexivity.
Qed.

Lemma isr_step_counts m m' :
  isr_step m m' ->
  syncCount (object m') = syncCount (object m) /\
  asyncCount (object m') = uint32 (asyncCount (object m) + 1).
Proof. intros Hstep. destruct Hstep as [reg m _]. split; reflexivity. Qed.

(** *** Interrupt-driven mode, edge by edge *)

Lemma uint32_succ_sub a : uint32 (uint32 (a + 1) - a) = 1.
Proof.
  unfold uint32. rewrite Zminus_mod_idemp_l.
  replace (a + 1 - a) with 1 by lia. reflexivity.
Qed.

(** One edge and the call of [Step] that reports it, from a state outside
    [Step] with nothing pending: the run of the interrupt routine, the
    snapshot, one turn of the loop, and the exit that stores the snapshot in
    [syncCount]. *)
Lemma interrupt_round this m0 k m (reg : Z) :
  reachable this m0 k m -> at_ m = Idle -> interruptible (object m) = true ->
  syncCount (object m) = asyncCount (object m) ->
  exists m2 m3,
    reachable this m0 (S k) m2 /\ main_step this m2 m3 /\
    syncCount (object m2) = syncCount (object m) /\
    at_ m3 = Idle /\ interruptible (object m3) = true /\
    asyncCount (object m3) = uint32 (asyncCount (object m) + 1) /\
    syncCount (object m3) = uint32 (asyncCount (object m) + 1).
Proof.
  intros Hr Hidle Hint Hsync.
  set (self0 := OnChange reg (object m)).
  set (count := uint32 (asyncCount (object m) + 1)).
  assert (Henter : enter reg (preempt reg m)
                   = mkMachine self0 (Looping count 1 0) (calls m)).
  { unfold enter, preempt. cbn [object calls]. fold self0.
    assert (Hi0 : interruptible self0 = true) by exact Hint.
    assert (Ha0 : asyncCount self0 = count) by reflexivity.
    assert (Hs0 : syncCount self0 = asyncCount (object m)) by exact Hsync.
    rewrite Hi0, Ha0, Hs0. unfold count. rewrite uint32_succ_sub. reflexivity. }
  set (self1 := with_syncState (negb (syncState self0)) self0).
  set (made := active_handler this self1 (syncState self1)).
  exists (mkMachine self1 (Looping count 1 1) (calls m ++ [made])),
         (mkMachine (with_syncCount count self1) Idle (calls m ++ [made])).
  split; [|split].
  - eapply reach_main; [eapply reach_main; [eapply reach_isr; [exact Hr|]|]|].
    + apply (isr_fire reg m Hint).
    + apply (main_enter this reg (preempt reg m)). exact Hidle.
    + apply main_turn. rewrite Henter. unfold turn. cbn [at_ object calls].
      replace (0 + 1 <=? INT_MAX) with true
        by (symmetry; apply Z.leb_le; pose proof INT_MAX_pos; lia).
      reflexivity.
  - apply main_turn. reflexivity.
  - cbn [object at_]. split; [reflexivity|]. split; [reflexivity|].
    split; [exact Hint|]. split; reflexivity.
Qed.

Lemma reachable_rounds this m0 k m :
  reachable this m0 k m -> at_ m = Idle -> interruptible (object m) = true ->
  syncCount (object m) = asyncCount (object m) ->
  is_uint32 (asyncCount (object m)) ->
  forall n : nat, exists m',
    reachable this m0 (n + k) m' /\ at_ m' = Idle /\
    interruptible (object m') = true /\
    syncCount (object m') = asyncCount (object m') /\
    asyncCount (object m') = uint32 (asyncCount (object m) + Z.of_nat n).
Proof.
  intros Hr Hidle Hint Hsync Ha.
  induction n as [|n (m' & Hr' & Hi' & Hp' & Hs' & Hc')].
  - exists m. split; [exact Hr|]. repeat split; try assumption.
    rewrite Z.add_0_r, uint32_small by exact Ha. reflexivity.
  - destruct (interrupt_round this m0 (n + k) m' 0 Hr' Hi' Hp' Hs')
      as (m2 & m3 & Hr2 & Hstep & _ & Hi3 & Hp3 & Ha3 & Hs3).
    exists m3. split; [exact (reach_main this m0 _ m2 m3 Hr2 Hstep)|].
    split; [exact Hi3|]. split; [exact Hp3|]. split; [congruence|].
    rewrite Ha3, Hc'. unfold uint32. rewrite Zplus_mod_idemp_l. f_equal. lia.
Qed.

(** *** Polling-only mode: [syncCount] alone counts *)

Lemma constructed_polling_only this pin function functionData data reg mem w :
  digitalPinToInterrupt pin < 0 ->
  polling_only (asyncCount mem)
    (constructed (fst (DigitalInput_new this pin function functionData data reg mem w))).
Proof.
  intros Hi. rewrite DigitalInput_new_polling by exact Hi.
  unfold polling_only, constructed, is_uint32, UINT32_MOD.
  cbn [fst object at_ interruptible asyncCount syncCount].
  split; [reflexivity|]. split; [reflexivity|]. split; [lia|exact I].
Qed.

(** No step of [Step] writes [asyncCount]; each leaves [syncCount] as it is
    or, on leaving the loop, adds one modulo [2^32]. *)
Lemma main_step_polling_only this stored m m' :
  polling_only stored m -> main_step this m m' ->
  polling_only stored m' /\
  asyncCount (object m') = asyncCount (object m) /\
  (syncCount (object m') = syncCount (object m) \/
   syncCount (object m') = uint32 (syncCount (object m) + 1)).
Proof.
  intros (Hint & Ha & Hs & Hat) Hstep.
  destruct Hstep as [reg m Hidle | m m' Hturn].
  - unfold enter. rewrite Hint.
    destruct (Bool.eqb _ _); cbn [Z.ltb Z.compare];
      unfold polling_only; cbn [object at_];
      (split; [|split; [reflexivity|left; reflexivity]]);
      (split; [exact Hint|]); (split; [exact Ha|]); (split; [exact Hs|]);
      [exact I|reflexivity].
  - unfold turn in Hturn.
    destruct (at_ m) as [|count change c] eqn:Em; [discriminate|].
    destruct (c <? change).
    + destruct (c + 1 <=? INT_MAX); [|discriminate].
      injection Hturn as <-.
      unfold polling_only;
        cbn [object at_ with_syncState interruptible asyncCount syncCount].
      split; [|split; [reflexivity|left; reflexivity]].
      split; [exact Hint|]. split; [exact Ha|]. split; [exact Hs|exact Hat].
    + injection Hturn as <-.
      unfold polling_only;
        cbn [object at_ with_syncCount interruptible asyncCount syncCount].
      split; [|split; [reflexivity|right; exact Hat]].
      split; [exact Hint|]. split; [exact Ha|]. split; [|exact I].
      rewrite Hat. apply uint32_is_uint32.
Qed.

(** The interrupt routine is never attached, so it never runs. *)
Lemma reachable_polling_only this stored m0 k m :
  reachable this m0 k m -> polling_only stored m0 ->
  k = 0%nat /\ polling_only stored m.
Proof.
  intros Hr H0. induction Hr as [|k m m' _ IH Hstep|k m m' _ IH Hstep].
  - split; [reflexivity|exact H0].
  - destruct IH as [-> Hinv]. split; [reflexivity|].
    apply (main_step_polling_only this stored m m' Hinv Hstep).
  - destruct IH as [_ (Hint & _)]. destruct Hstep as [reg m Htrue]. congruence.
Qed.

(** A call of [Step] returns with [syncCount] as it was if the level read
    is [syncState], and one more modulo [2^32] otherwise. *)
Lemma polling_Step_count this reg m m' :
  interruptible (object m) = false ->
  in_Step this (enter reg m) m' ->
  syncCount (object m')
  = if Bool.eqb (raw_level reg (mask (object m))) (syncState (object m))
    then syncCount (object m)
    else uint32 (syncCount (object m) + 1).
Proof.
  intros Hint Hin. unfold enter in Hin. rewrite Hint in Hin.
  fold (raw_level reg (mask (object m))) in Hin.
  destruct (Bool.eqb (raw_level reg (mask (object m))) (syncState (object m)));
    cbn [Z.ltb Z.compare] in Hin.
  - rewrite (in_Step_idle this _ m' Hin eq_refl). reflexivity.
  - apply (in_Step_looping this _ m' Hin _ _ _ eq_refl).
Qed.

(** A polling-only object whose mask selects a bit can read a change at
    every call of [Step]: from a state outside [Step], the call that reads
    the level opposite to [syncState] makes its one turn of the loop, and
    its exit adds one to [syncCount], modulo [2^32]. *)
Lemma poll_toggle this m0 m :
  reachable this m0 0 m -> at_ m = Idle ->
  interruptible (object m) = false -> mask (object m) <> 0 ->
  exists m2 m3,
    reachable this m0 0 m2 /\ main_step this m2 m3 /\
    syncCount (object m2) = syncCount (object m) /\
    syncCount (object m3) = uint32 (syncCount (object m) + 1) /\
    at_ m3 = Idle /\ interruptible (object m3) = false /\
    mask (object m3) = mask (object m).
Proof.
  intros Hr Hidle Hint Hmask.
  set (reg := if syncState (object m) then 0 else mask (object m)).
  assert (Hne : Bool.eqb (raw_level reg (mask (object m))) (syncState (object m))
                = false).
  { unfold reg, raw_level, BRIDGE_READ, bool_of_int.
    destruct (syncState (object m)).
    - rewrite Z.land_0_l. reflexivity.
    - rewrite Z.land_diag.
      destruct (Z.eqb_spec (mask (object m)) 0); [contradiction|]. reflexivity. }
  assert (Henter : enter reg m
                   = mkMachine (object m)
                       (Looping (uint32 (syncCount (object m) + 1)) 1 0) (calls m)).
  { unfold enter. rewrite Hint. fold (raw_level reg (mask (object m))).
    rewrite Hne. reflexivity. }
  set (self1 := with_syncState (negb (syncState (object m))) (object m)).
  set (made := active_handler this self1 (syncState self1)).
  set (count := uint32 (syncCount (object m) + 1)) in *.
  exists (mkMachine self1 (Looping count 1 1) (calls m ++ [made])),
         (mkMachine (with_syncCount count self1) Idle (calls m ++ [made])).
  split; [|split].
  - eapply reach_main; [eapply reach_main; [exact Hr|]|].
    + apply (main_enter this reg m Hidle).
    + apply main_turn. rewrite Henter. unfold turn. cbn [at_ object calls].
      replace (0 + 1 <=? INT_MAX) with true
        by (symmetry; apply Z.leb_le; pose proof INT_MAX_pos; lia).
      reflexivity.
  - apply main_turn. reflexivity.
  - cbn [object at_]. unfold self1.
    cbn [with_syncCount with_syncState syncCount interruptible mask].
    repeat split. exact Hint.
Qed.

Lemma reachable_polls this m0 :
  at_ m0 = Idle -> interruptible (object m0) = false -> mask (object m0) <> 0 ->
  is_uint32 (syncCount (object m0)) ->
  forall n : nat, exists m,
    reachable this m0 0 m /\ at_ m = Idle /\ interruptible (object m) = false /\
    mask (object m) = mask (object m0) /\
    syncCount (object m) = uint32 (syncCount (object m0) + Z.of_nat n).
Proof.
  intros Hidle Hint Hmask Hs. induction n as [|n (m & Hr & Hi & Hp & Hm & Hc)].
  - exists m0. split; [apply reach_start|]. repeat split; try assumption.
    rewrite Z.add_0_r, uint32_small by exact Hs. reflexivity.
  - destruct (poll_toggle this m0 m Hr Hi Hp) as (m2 & m3 & Hr2 & Hstep & _ & H3 & Hi3 & Hp3 & Hm3);
      [congruence|].
    exists m3. split; [exact (reach_main this m0 0 m2 m3 Hr2 Hstep)|].
    split; [exact Hi3|]. split; [exact Hp3|]. split; [congruence|].
    rewrite H3, Hc. unfold uint32. rewrite Zplus_mod_idemp_l. f_equal. lia.
Qed.

(** C5 (amended).  In every state reached from construction by steps of
    [Step] interleaved in any way with runs of the interrupt routine.

    Interrupt-driven object: a call of [Step] entered there returns with
    [syncCount] equal to the [asyncCount] of its snapshot; no step of [Step]
    changes [asyncCount]; a run of the interrupt routine leaves [syncCount]
    and adds one to [asyncCount], modulo [2^32]; and as long as there have
    been fewer than [2^32 - 1] runs of the interrupt routine, so that
    [asyncCount] has not wrapped, [syncCount <= asyncCount], and no step of
    the main context and no run of the interrupt routine (short of the one
    that wraps [asyncCount]) decreases either counter.

    Polling-only object: the interrupt routine has not run and cannot run;
    [asyncCount] is still what the storage of the object held before
    construction and no step of [Step] changes it; a call of [Step] entered
    there returns with [syncCount] as it was if the level read is
    [syncState] and with one more, modulo [2^32], otherwise; every step of
    [Step] leaves [syncCount] as it is or adds one modulo [2^32], so none
    decreases it short of the one that wraps it. *)
Theorem counters_while_not_wrapped
    this pin function functionData data reg mem w (k : nat) m :
  reachable this
    (constructed (fst (DigitalInput_new this pin function functionData data reg mem w)))
    k m ->
  (0 <= digitalPinToInterrupt pin ->
   (forall m', Step_call this m m' ->
      syncCount (object m') = asyncCount (object m)) /\
   (forall m', main_step this m m' ->
      asyncCount (object m') = asyncCount (object m)) /\
   (forall m', isr_step m m' ->
      syncCount (object m') = syncCount (object m) /\
      asyncCount (object m') = uint32 (asyncCount (object m) + 1)) /\
   (1 + Z.of_nat k < UINT32_MOD ->
    syncCount (object m) <= asyncCount (object m) /\
    (forall m', main_step this m m' ->
       syncCount (object m) <= syncCount (object m') /\
       asyncCount (object m) <= asyncCount (object m')) /\
    (forall m', isr_step m m' -> 2 + Z.of_nat k < UINT32_MOD ->
       syncCount (object m) <= syncCount (object m') /\
       asyncCount (object m) <= asyncCount (object m')))) /\
  (digitalPinToInterrupt pin < 0 ->
   k = 0%nat /\
   (forall m', ~ isr_step m m') /\
   asyncCount (object m) = asyncCount mem /\
   (forall m', Step_call this m m' ->
      syncCount (object m') = syncCount (object m) \/
      syncCount (object m') = uint32 (syncCount (object m) + 1)) /\
   (forall reg' m', in_Step this (enter reg' m) m' ->
      syncCount (object m')
      = if Bool.eqb (raw_level reg' (mask (object m))) (syncState (object m))
        then syncCount (object m)
        else uint32 (syncCount (object m) + 1)) /\
   (forall m', main_step this m m' ->
      asyncCount (object m') = asyncCount (object m) /\
      (syncCount (object m') = syncCount (object m) \/
       syncCount (object m') = uint32 (syncCount (object m) + 1)) /\
      (syncCount (object m) + 1 < UINT32_MOD ->
       syncCount (object m) <= syncCount (object m')))).
Proof.
  intros Hreach. split; intros Hi.
  - split; [|split; [|split]].
    + pose proof (reachable_well_typed this _ k m Hreach
                    (constructed_well_typed this pin function functionData data
                       reg mem w Hi)) as (Hint & Hok & _).
      intros m' Hcall. apply (Step_call_snapshot this m m'); assumption.
    + intros m'. apply main_step_asyncCount.
    + intros m'. apply isr_step_counts.
    + intros Hk.
      pose proof (reachable_catching_up this _ k m Hreach
                    (constructed_catching_up this pin function functionData data
                       reg mem w Hi) Hk) as Hinv.
      pose proof Hinv as (Hint & Ha & Hs & _).
      split; [lia|]. split.
      * intros m' Hstep.
        destruct (main_step_catching_up this k m m' Hinv Hk Hstep) as (_ & H1 & H2).
        lia.
      * intros m' Hstep Hk'.
        destruct (isr_step_catching_up k m m' Hinv Hk' Hstep) as (_ & H1 & H2).
        lia.
  - destruct (reachable_polling_only this _ _ k m Hreach
                (constructed_polling_only this pin function functionData data
                   reg mem w Hi)) as [Hk Hinv].
    pose proof Hinv as (Hint & Ha & Hs & _).
    split; [exact Hk|]. split; [|split; [exact Ha|split; [|split]]].
    + intros m' Hstep. destruct Hstep as [reg' m Htrue]. congruence.
    + intros m' (_ & reg' & Hin).
      rewrite (polling_Step_count this reg' m m' Hint Hin).
      destruct (Bool.eqb _ _); [left|right]; reflexivity.
    + intros reg' m' Hin. apply (polling_Step_count this reg' m m' Hint Hin).
    + intros m' Hstep.
      destruct (main_step_polling_only this _ m m' Hinv Hstep) as (_ & H1 & H2).
      split; [exact H1|]. split; [exact H2|].
      intros Hw. destruct H2 as [-> | ->]; [lia|].
      rewrite uint32_small by (unfold is_uint32 in *; lia). lia.
Qed.

(** *** [Step] as a whole and [Step] instruction by instruction *)

Lemma with_syncState_same self : with_syncState (syncState self) self = self.
Proof. destruct self. reflexivity. Qed.

Lemma catch_up_in_Step this count change : forall fuel c self l final made,
  catch_up fuel (active_handler this self) change c (syncState self)
  = Done (final, made) ->
  in_Step this (mkMachine self (Looping count change c) l)
    (mkMachine (with_syncCount count (with_syncState final self)) Idle (l ++ made)).
Proof.
  induction fuel as [|fuel IH]; intros c self l final made H; [discriminate|].
  cbn [catch_up] in H.
  destruct (c <? change) eqn:Ec.
  - destruct (c + 1 <=? INT_MAX) eqn:Em; [|discriminate].
    destruct (catch_up fuel _ change (c + 1) (negb (syncState self)))
      as [[final' rest]| |] eqn:Er; try discriminate.
    injection H as <- <-.
    eapply in_Step_turn.
    + unfold turn. cbn [at_ object]. rewrite Ec, Em. reflexivity.
    + specialize (IH (c + 1) (with_syncState (negb (syncState self)) self)
                    (l ++ [active_handler this self (negb (syncState self))])
                    final' rest Er).
      rewrite <- app_assoc in IH. exact IH.
  - injection H as <- <-.
    eapply in_Step_turn.
    + unfold turn. cbn [at_ object]. rewrite Ec. reflexivity.
    + rewrite with_syncState_same, app_nil_r.
      apply in_Step_return. reflexivity.
Qed.

(** A run of [Step] that returns is a call of the machine in which the
    interrupt routine does not run. *)
Lemma Step_is_a_Step_call this reg self self' made l :
  Step this reg self = Done (self', made) ->
  Step_call this (mkMachine self Idle l) (mkMachine self' Idle (l ++ made)).
Proof.
  intros H. split; [reflexivity|]. exists reg.
  assert (Hrec : forall count change,
            reconcile this self count change = Done (self', made) ->
            in_Step this
              (if 0 <? change then mkMachine self (Looping count change 0) l
               else mkMachine self Idle l)
              (mkMachine self' Idle (l ++ made))).
  { intros count change Hr. unfold reconcile in Hr.
    destruct (0 <? change).
    - destruct (catch_up _ _ change 0 (syncState self))
        as [[final made']| |] eqn:Ec; try discriminate.
      injection Hr as <- <-.
      apply (catch_up_in_Step this count change _ 0 self l final made' Ec).
    - injection Hr as <- <-. rewrite app_nil_r.
      apply in_Step_return. reflexivity. }
  rewrite Step_reconcile in H. unfold enter. cbn [object calls].
  fold (raw_level reg (mask self)).
  destruct (interruptible self).
  - apply Hrec, H.
  - destruct (Bool.eqb (raw_level reg (mask self)) (syncState self));
      apply Hrec, H.
Qed.

(** *** Interrupt vectors *)

Lemma DigitalInput_new_pin this pin function functionData data reg mem w :
  let self := fst (DigitalInput_new this pin function functionData data reg mem w) in
  bridge.pin self = pin /\
  (interruptible self = true <-> 0 <= digitalPinToInterrupt pin).
Proof.
  destruct (Z_le_gt_dec 0 (digitalPinToInterrupt pin)) as [Hi|Hi]; cbv zeta.
  - rewrite DigitalInput_new_interrupt by exact Hi. cbn. tauto.
  - rewrite DigitalInput_new_polling by lia. cbn.
    split; [reflexivity|]. split; [discriminate|lia].
Qed.

Lemma raise_detached interruptId w :
  vectors w !! interruptId = None -> raise interruptId w = (None, w).
Proof. intros H. unfold raise. rewrite H. reflexivity. Qed.

Lemma power_on_valid : vectors_valid power_on.
Proof.
  intros k [f H]. cbn in H. rewrite lookup_empty in H. discriminate.
Qed.

Lemma DigitalInput_new_valid this pin function functionData data reg mem w :
  vectors_valid w ->
  vectors_valid (snd (DigitalInput_new this pin function functionData data reg mem w)).
Proof.
  intros Hv. unfold DigitalInput_new.
  destruct (0 <=? digitalPinToInterrupt pin) eqn:E; [|exact Hv].
  destruct (meta.Wrap OnChange_entry this (wrappers w)) as [entry wr].
  intros k. cbn [snd vectors]. unfold attachInterrupt.
  destruct (decide (digitalPinToInterrupt pin = k)) as [<-|Hne].
  - intros _. apply Z.leb_le, E.
  - rewrite lookup_insert_ne by exact Hne. apply Hv.
Qed.

Lemma DigitalInput_delete_valid self w :
  vectors_valid w -> vectors_valid (DigitalInput_delete self w).
Proof.
  intros Hv k. cbn [DigitalInput_delete vectors]. unfold detachInterrupt.
  destruct (decide (digitalPinToInterrupt (pin self) = k)) as [<-|Hne].
  - rewrite lookup_delete_eq. intros [f H]. discriminate.
  - rewrite lookup_delete_ne by exact Hne. apply Hv.
Qed.

(** After construction on a pin with an interrupt, raising that interrupt
    goes through the entry point [Wrap] returned and calls the static
    [OnChange] with the address of the object, as long as the table had a
    slot left. *)
Lemma constructor_attaches this pin function functionData data reg mem w :
  0 <= digitalPinToInterrupt pin ->
  meta.settled (wrappers w) ->
  0 <= meta.uid (wrappers w) < Z.of_nat meta.BRIDGE_MAX_WRAPPERS ->
  fst (raise (digitalPinToInterrupt pin)
         (snd (DigitalInput_new this pin function functionData data reg mem w)))
  = Some (meta.mkCall OnChange_entry this).
Proof.
  intros Hi Hs Hu. unfold DigitalInput_new.
  replace (0 <=? digitalPinToInterrupt pin) with true
    by (symmetry; apply Z.leb_le; exact Hi).
  pose proof (Wrap_returns OnChange_entry this (wrappers w)) as Hf.
  pose proof (Wrap_cell OnChange_entry this (wrappers w) (meta.uid (wrappers w)))
    as Hc.
  destruct (meta.Wrap OnChange_entry this (wrappers w)) as [entry wr].
  cbn [fst snd] in *. unfold raise, attachInterrupt. cbn [vectors wrappers].
  rewrite lookup_insert_eq.
  pose proof (run_once_expanded (wrappers w) Hs (Z.to_nat (meta.uid (wrappers w))))
    as He.
  rewrite Z2Nat.id in He by lia. rewrite He in Hf by lia. subst entry.
  cbn [meta.invoke meta.Wrapper fst]. rewrite !cell_touch.
  rewrite Z2Nat.id by lia. rewrite Hc, decide_True by reflexivity.
  reflexivity.
Qed.

(** So an edge on that pin runs the interrupt routine of that object and of
    no other. *)
Lemma edge_after_construction
    this pin function functionData data reg mem w reg' objects :
  0 <= digitalPinToInterrupt pin ->
  meta.settled (wrappers w) ->
  0 <= meta.uid (wrappers w) < Z.of_nat meta.BRIDGE_MAX_WRAPPERS ->
  snd (edge (digitalPinToInterrupt pin) reg'
         (snd (DigitalInput_new this pin function functionData data reg mem w))
         objects)
  = alter (OnChange reg') this objects.
Proof.
  intros Hi Hs Hu.
  pose proof (constructor_attaches this pin function functionData data reg mem w
                Hi Hs Hu) as H.
  unfold edge.
  destruct (raise _ _) as [[c|] w1]; cbn [fst] in H; [|discriminate].
  injection H as ->. cbn [meta.callee meta.argument snd].
  rewrite Z.eqb_refl. reflexivity.
Qed.

(** C9.  Destroying an object detaches the interrupt of its pin.  If the
    object was interrupt-driven, no entry point is attached to that interrupt
    afterwards, so raising it calls nothing and an edge on the pin updates no
    object: the interrupt routine, and with it any further report of the
    listener for that pin, can no longer be reached.  If the object was
    polling-only, the interrupt vectors are as they were. *)
Theorem destruction_detaches this pin function functionData data reg mem w w' :
  let self := fst (DigitalInput_new this pin function functionData data reg mem w) in
  let interruptId := digitalPinToInterrupt pin in
  (interruptible self = true ->
     vectors (DigitalInput_delete self w') !! interruptId = None /\
     raise interruptId (DigitalInput_delete self w')
     = (None, DigitalInput_delete self w') /\
     forall reg' objects,
       edge interruptId reg' (DigitalInput_delete self w') objects
       = (DigitalInput_delete self w', objects)) /\
  (interruptible self = false ->
     vectors_valid w' -> DigitalInput_delete self w' = w').
Proof.
  intros self interruptId.
  destruct (DigitalInput_new_pin this pin function functionData data reg mem w)
    as [Hpin Hmode].
  fold self in Hpin, Hmode.
  assert (Hgone : vectors (DigitalInput_delete self w') !! interruptId = None).
  { unfold DigitalInput_delete, detachInterrupt. cbn [vectors].
    rewrite Hpin. apply lookup_delete_eq. }
  split.
  - intros _. split; [exact Hgone|]. split; [apply raise_detached, Hgone|].
    intros reg' objects. unfold edge.
    rewrite (raise_detached _ _ Hgone). reflexivity.
  - intros Hpoll Hv.
    assert (Hneg : digitalPinToInterrupt pin < 0).
    { destruct (Z_le_gt_dec 0 (digitalPinToInterrupt pin)) as [Hi|Hi]; [|lia].
      apply Hmode in Hi. congruence. }
    unfold DigitalInput_delete, detachInterrupt. rewrite Hpin.
    rewrite delete_id.
    + destruct w'. reflexivity.
    + destruct (vectors w' !! digitalPinToInterrupt pin) eqn:E; [|reflexivity].
      assert (0 <= digitalPinToInterrupt pin) by (apply Hv; eauto). lia.
Qed.

(** *** Many runs of the interrupt routine *)

Lemma OnChange_each_cons reg regs self :
  OnChange_each (reg :: regs) self = OnChange_each regs (OnChange reg self).
Proof. reflexivity. Qed.

Lemma OnChange_each_sync : forall regs self,
  syncCount (OnChange_each regs self) = syncCount self /\
  syncState (OnChange_each regs self) = syncState self /\
  interruptible (OnChange_each regs self) = interruptible self.
Proof.
  induction regs as [|reg regs IH]; intros self; [repeat split|].
  rewrite OnChange_each_cons.
  destruct (IH (OnChange reg self)) as (-> & -> & ->). repeat split.
Qed.

Lemma OnChange_each_handler this : forall regs self,
  active_handler this (OnChange_each regs self) = active_handler this self.
Proof.
  induction regs as [|reg regs IH]; intros self; [reflexivity|].
  rewrite OnChange_each_cons, IH. reflexivity.
Qed.

Lemma OnChange_each_asyncCount : forall regs self,
  is_uint32 (asyncCount self) ->
  asyncCount (OnChange_each regs self)
  = uint32 (asyncCount self + Z.of_nat (length regs)).
Proof.
  induction regs as [|reg regs IH]; intros self Ha.
  - cbn [OnChange_each fold_left length]. rewrite Z.add_0_r.
    symmetry. apply uint32_small, Ha.
  - rewrite OnChange_each_cons, IH by apply uint32_is_uint32.
    unfold OnChange, with_async. cbn [asyncCount length].
    unfold uint32, UINT32_MOD.
    rewrite Z.add_mod_idemp_l by lia. f_equal. lia.
Qed.

Lemma reachable_isr_each this m0 : forall regs k m,
  reachable this m0 k m -> interruptible (object m) = true ->
  reachable this m0 (length regs + k)
    (mkMachine (OnChange_each regs (object m)) (at_ m) (calls m)).
Proof.
  induction regs as [|reg regs IH]; intros k m Hr Hi.
  - destruct m. exact Hr.
  - cbn [length]. rewrite OnChange_each_cons.
    replace (S (length regs) + k)%nat with (length regs + S k)%nat by lia.
    apply (IH (S k) (preempt reg m)).
    + eapply reach_isr; [exact Hr|]. apply isr_fire, Hi.
    + exact Hi.
Qed.

(** *** [GetState] around the first [Step] *)

(** The first [Step] of an interrupt-driven object after [edges] runs of
    the interrupt routine leaves [syncState] at the level read by the
    constructor toggled once per run. *)
Lemma first_Step_after_edges this pin function functionData data reg mem w edges reg' :
  0 <= digitalPinToInterrupt pin ->
  1 + Z.of_nat (length edges) <= INT_MAX ->
  1 + Z.of_nat (length edges) < UINT32_MOD ->
  let self := fst (DigitalInput_new this pin function functionData data reg mem w) in
  let level := raw_level reg (digitalPinToBitMask pin) in
  exists self' made,
    Step this reg' (OnChange_each edges self) = Done (self', made) /\
    length made = S (length edges) /\
    syncState self' = negated (length edges) level.
Proof.
  intros Hi Hmax Hmod self level.
  assert (Hself : self = mkDigitalInput (portInputRegister_digitalPinToPort pin)
            (digitalPinToBitMask pin) function functionData data pin true
            1 level 0 (negb level))
    by (apply DigitalInput_new_interrupt, Hi).
  destruct (OnChange_each_sync edges self) as (Hc & Hs & Hint).
  pose proof (OnChange_each_asyncCount edges self) as Ha.
  rewrite Hself in Hc, Hs, Hint, Ha. cbn in Hc, Hs, Hint, Ha.
  rewrite <- Hself in Hc, Hs, Hint, Ha.
  rewrite uint32_small in Ha by (unfold is_uint32; lia).
  specialize (Ha ltac:(unfold is_uint32, UINT32_MOD; lia)).
  eexists _, _. split; [|split].
  - apply (Step_catches_up this reg' _ (S (length edges))).
    + exact Hint.
    + split; rewrite ?Ha, ?Hc; unfold is_uint32, UINT32_MOD in *; lia.
    + rewrite Ha, Hc. lia.
    + lia.
    + lia.
  - apply replay_length.
  - cbn [syncState with_syncCount with_syncState].
    rewrite Hs, <- negated_shift, negb_involutive. reflexivity.
Qed.

(** C10.  In either mode [GetState] after construction answers the negation
    of the level the constructor read, not that level, and goes on doing so
    until the first [Step], whatever the interrupt routine does meanwhile.
    After the first [Step] it answers the level of the line: in polling-only
    mode the level that [Step] read; in interrupt-driven mode the level read
    by the constructor toggled once per run of the interrupt routine (the
    level itself when there was no edge), for as many runs as the loop
    counter and [asyncCount] can hold. *)
Theorem GetState_around_first_Step this pin function functionData data reg mem w :
  let self := fst (DigitalInput_new this pin function functionData data reg mem w) in
  let level := raw_level reg (digitalPinToBitMask pin) in
  GetState self = negb level /\
  GetState self <> level /\
  (forall edges, GetState (OnChange_each edges self) = negb level) /\
  (digitalPinToInterrupt pin < 0 ->
   forall reg', exists self' made,
     Step this reg' self = Done (self', made) /\
     GetState self' = raw_level reg' (digitalPinToBitMask pin)) /\
  (0 <= digitalPinToInterrupt pin ->
   forall edges reg',
     1 + Z.of_nat (length edges) <= INT_MAX ->
     1 + Z.of_nat (length edges) < UINT32_MOD ->
     exists self' made,
       Step this reg' (OnChange_each edges self) = Done (self', made) /\
       GetState self' = negated (length edges) level).
Proof.
  intros self level.
  destruct (DigitalInput_new_sync this pin function functionData data reg mem w)
    as (Hs & _ & Hm & Hmode).
  fold self in Hs, Hm, Hmode. fold level in Hs. unfold GetState.
  split; [exact Hs|]. split; [rewrite Hs; destruct level; discriminate|].
  split; [|split].
  - intros edges. destruct (OnChange_each_sync edges self) as (_ & -> & _).
    exact Hs.
  - intros Hp reg'.
    assert (Hpoll : interruptible self = false)
      by (rewrite Hmode; apply Z.leb_gt; exact Hp).
    destruct (Bool.bool_dec (raw_level reg' (mask self)) (syncState self))
      as [E|E].
    + eexists _, _. split; [apply Step_polls_same; assumption|].
      rewrite <- Hm. symmetry. exact E.
    + eexists _, _. split; [apply Step_polls_changed; assumption|].
      rewrite <- Hm. reflexivity.
  - intros Hi edges reg' Hmax Hmod.
    destruct (first_Step_after_edges this pin function functionData data reg
                mem w edges reg' Hi Hmax Hmod) as (self' & made & H1 & _ & H2).
    exists self', made. split; assumption.
Qed.

End Tracker.

(** ** On the Uno *)

Section OnTheUno.
Import bridge.

(** Closed comparisons and equations, by evaluation. *)
Ltac evaluate :=
  vm_compute; first [reflexivity | discriminate | (intro; discriminate)].

(** The overrun of C1 on a 16-bit [int]: 40000 edges between two calls of
    [Step]. *)
Lemma Step_loop_counter_overflows_witness :
  interruptible uno_pin2_overrun = true /\
  INT_MAX < asyncCount uno_pin2_overrun - syncCount uno_pin2_overrun /\
  Step 256 4 uno_pin2_overrun = Undefined.
Proof.
  assert (Hi : interruptible uno_pin2_overrun = true) by evaluate.
  assert (Hc : counters_ok uno_pin2_overrun) by (split; split; evaluate).
  assert (Hn : INT_MAX < asyncCount uno_pin2_overrun - syncCount uno_pin2_overrun)
    by evaluate.
  split; [exact Hi|]. split; [exact Hn|].
  exact (Step_loop_counter_overflows 256 4 uno_pin2_overrun Hi Hc Hn).
Defined.

Lemma interrupt_mode_first_Step_witness :
  0 <= digitalPinToInterrupt 2 /\
  Step 256 4 (uno_pin2 4)
  = Done (with_syncCount 1 (with_syncState (raw_level 4 (digitalPinToBitMask 2)) (uno_pin2 4)),
          [active_handler 256 (uno_pin2 4) (raw_level 4 (digitalPinToBitMask 2))]).
Proof.
  assert (Hi : 0 <= digitalPinToInterrupt 2) by evaluate.
  split; [exact Hi|].
  exact (proj2 (proj2 (proj2 (proj2 (proj2
    (interrupt_mode_first_Step 256 2 1024 0 0 4 zeroed power_on 4 Hi)))))).
Defined.

(** C2 as stated fails: on pin 2 (interrupt-driven) and on pin 4
    (polling-only) of the Uno, the line high when the object is constructed
    and still high at the first [Step], the one call made passes [true], the
    level itself; its negation is [false]. *)
Lemma first_call_is_not_the_negation :
  raw_level 4 (digitalPinToBitMask 2) = true /\
  (exists self',
     Step 256 4 (uno_pin2 4) = Done (self', [call_function 1024 256 true])) /\
  call_function 1024 256 true
  <> call_function 1024 256 (negb (raw_level 4 (digitalPinToBitMask 2))) /\
  raw_level 16 (digitalPinToBitMask 4) = true /\
  (exists self',
     Step 288 16 (uno_pin4 16)
     = Done (self', [call_functionData 2048 288 true 77])) /\
  call_functionData 2048 288 true 77
  <> call_functionData 2048 288 (negb (raw_level 16 (digitalPinToBitMask 4))) 77.
Proof.
  split; [evaluate|]. split; [eexists; vm_compute; reflexivity|].
  split; [evaluate|]. split; [evaluate|].
  split; [eexists; vm_compute; reflexivity|]. evaluate.
Qed.

Lemma first_Step_reports_the_initial_level_witness :
  raw_level 16 (digitalPinToBitMask 4) = raw_level 16 (digitalPinToBitMask 4) /\
  exists self',
    Step 288 16 (uno_pin4 16)
    = Done (self', [active_handler 288 (uno_pin4 16)
                      (raw_level 16 (digitalPinToBitMask 4))]) /\
    syncState self' = raw_level 16 (digitalPinToBitMask 4).
Proof.
  split; [reflexivity|].
  exact (first_Step_reports_the_initial_level 288 4 0 2048 77 16 zeroed power_on
           16 eq_refl).
Defined.

Lemma GetState_around_first_Step_witness :
  0 <= digitalPinToInterrupt 2 /\
  1 + Z.of_nat (length [0; 4; 0]) <= INT_MAX /\
  GetState (uno_pin2 4) = negb (raw_level 4 (digitalPinToBitMask 2)) /\
  exists self' made,
    Step 256 0 (OnChange_each [0; 4; 0] (uno_pin2 4)) = Done (self', made) /\
    GetState self' = negated (length [0; 4; 0]) (raw_level 4 (digitalPinToBitMask 2)).
Proof.
  assert (Hi : 0 <= digitalPinToInterrupt 2) by evaluate.
  assert (Hmax : 1 + Z.of_nat (length [0; 4; 0]) <= INT_MAX) by evaluate.
  assert (Hmod : 1 + Z.of_nat (length [0; 4; 0]) < UINT32_MOD) by evaluate.
  split; [exact Hi|]. split; [exact Hmax|].
  pose proof (GetState_around_first_Step 256 2 1024 0 0 4 zeroed power_on)
    as (H1 & _ & _ & _ & H5).
  split; [exact H1|].
  exact (H5 Hi [0; 4; 0] 0 Hmax Hmod).
Defined.

(** C6 as stated fails: pin 4 of the Uno (polling-only), the line low at
    construction and at the first [Step], then high, then low again before
    the second [Step]: the second [Step] makes no call, not one.  The same
    on pin 2 (interrupt-driven): the second [Step] makes two calls. *)
Lemma polling_double_toggle_makes_no_call :
  raw_level 0 (digitalPinToBitMask 4) = false /\
  Step 288 0 (uno_pin4 0)
  = Done (after_Step 288 0 (uno_pin4 0), [call_functionData 2048 288 false 77]) /\
  Step 288 0 (after_Step 288 0 (uno_pin4 0))
  = Done (after_Step 288 0 (uno_pin4 0), []) /\
  length (@nil invocation) <> 1%nat /\
  Step 256 0 (uno_pin2 0)
  = Done (after_Step 256 0 (uno_pin2 0), [call_function 1024 256 false]) /\
  Step 256 0 (OnChange_each [4; 0] (after_Step 256 0 (uno_pin2 0)))
  = Done (after_Step 256 0 (OnChange_each [4; 0] (after_Step 256 0 (uno_pin2 0))),
          [call_function 1024 256 true; call_function 1024 256 false]).
Proof. repeat split; evaluate. Qed.

Lemma polling_Step_and_bursts_witness :
  (exists polled1,
     Step 288 0 (uno_pin4 0)
     = Done (polled1, [active_handler 288 (uno_pin4 0) false]) /\
     Step 288 0 polled1 = Done (polled1, [])) /\
  (exists driven1 driven3,
     Step 288 0 (fst (DigitalInput_new 288 2 0 2048 77 0 zeroed power_on))
     = Done (driven1,
             [active_handler 288
                (fst (DigitalInput_new 288 2 0 2048 77 0 zeroed power_on)) false]) /\
     Step 288 0 (OnChange 0 (OnChange 4 driven1))
     = Done (driven3,
             [active_handler 288
                (fst (DigitalInput_new 288 2 0 2048 77 0 zeroed power_on)) true;
              active_handler 288
                (fst (DigitalInput_new 288 2 0 2048 77 0 zeroed power_on)) false])).
Proof.
  assert (Hp : digitalPinToInterrupt 4 < 0) by evaluate.
  assert (Hi : 0 <= digitalPinToInterrupt 2) by evaluate.
  assert (Hp0 : raw_level 0 (digitalPinToBitMask 4) = false) by evaluate.
  assert (Hi0 : raw_level 0 (digitalPinToBitMask 2) = false) by evaluate.
  exact (proj2 (polling_Step_and_bursts 288 4 2 0 2048 77 zeroed power_on
                  0 4 0 Hp Hi Hp0 Hp0 Hi0)).
Defined.

(** The first [Step] after construction, instruction by instruction. *)
Lemma uno_pin2_first_report :
  reachable 256 (constructed (uno_pin2 4)) 0
    (mkMachine (after_Step 256 4 (uno_pin2 4)) Idle [call_function 1024 256 true]).
Proof.
  eapply reach_main; [eapply reach_main; [eapply reach_main|]|].
  - apply reach_start.
  - apply (main_enter 256 4). reflexivity.
  - apply main_turn. lazy. reflexivity.
  - apply main_turn. vm_compute. reflexivity.
Qed.

Lemma uno_pin4_first_report :
  reachable 288 (constructed (uno_pin4 16)) 0
    (mkMachine (after_Step 288 16 (uno_pin4 16)) Idle
       [call_functionData 2048 288 true 77]).
Proof.
  eapply reach_main; [eapply reach_main; [eapply reach_main|]|].
  - apply reach_start.
  - apply (main_enter 288 16). reflexivity.
  - apply main_turn. lazy. reflexivity.
  - apply main_turn. vm_compute. reflexivity.
Qed.

(** C5 as stated fails.  On pin 4 of the Uno (polling-only, the object in
    zeroed storage) nothing ever writes [asyncCount], so after the first
    [Step] [syncCount] is 1 and [asyncCount] is 0.  On pin 2
    (interrupt-driven) the first [Step] leaves both counters at 1, and
    [2^32 - 1] runs of the interrupt routine later [asyncCount] has wrapped
    to 0.  Neither counter is monotonic at a wrap: on pin 2 the run of the
    interrupt routine that follows [2^32 - 2] others takes [asyncCount] from
    [2^32 - 1] to 0; on pin 4 the exit of the loop of the call of [Step]
    that follows [2^32 - 1] reported changes takes [syncCount] from
    [2^32 - 1] to 0; and on pin 2, each edge reported by a call of [Step]
    before the next, the call that reports the edge that wrapped
    [asyncCount] takes [syncCount] from [2^32 - 1] to 0.  On pin 4 the first
    call of [Step] returns with [syncCount] different from the [asyncCount]
    it found. *)
Lemma counters_out_of_order :
  (exists m,
     reachable 288 (constructed (uno_pin4 16)) 0 m /\
     asyncCount (object m) < syncCount (object m)) /\
  (exists m,
     reachable 256 (constructed (uno_pin2 4))
       (length (replicate (Z.to_nat 4294967295) 0) + 0) m /\
     asyncCount (object m) < syncCount (object m)) /\
  (exists m m',
     reachable 256 (constructed (uno_pin2 4))
       (length (replicate (Z.to_nat 4294967294) 0) + 0) m /\
     isr_step m m' /\
     asyncCount (object m') < asyncCount (object m)) /\
  (exists m m',
     reachable 288 (constructed (uno_pin4 16)) 0 m /\
     main_step 288 m m' /\
     syncCount (object m') < syncCount (object m)) /\
  (exists m m',
     reachable 256 (constructed (uno_pin2 4)) (S (Z.to_nat 4294967294 + 0)) m /\
     main_step 256 m m' /\
     syncCount (object m') < syncCount (object m)) /\
  (exists m',
     Step_call 288 (constructed (uno_pin4 16)) m' /\
     syncCount (object m') <> asyncCount (object (constructed (uno_pin4 16)))).
Proof.
  split; [|split; [|split; [|split; [|split]]]].
  - eexists. split; [apply uno_pin4_first_report|]. evaluate.
  - remember (replicate (Z.to_nat 4294967295) 0) as edges eqn:E.
    eexists. split.
    + apply (reachable_isr_each 256 _ edges _ _ uno_pin2_first_report).
      evaluate.
    + cbn [object].
      destruct (OnChange_each_sync edges (after_Step 256 4 (uno_pin2 4)))
        as (-> & _).
      rewrite OnChange_each_asyncCount by (split; evaluate).
      assert (HN : Z.of_nat (length edges) = 4294967295)
        by (subst edges; rewrite length_replicate; apply Z2Nat.id; discriminate).
      rewrite HN. evaluate.
  - remember (replicate (Z.to_nat 4294967294) 0) as edges eqn:E.
    assert (HN : Z.of_nat (length edges) = 4294967294)
      by (subst edges; rewrite length_replicate; apply Z2Nat.id; discriminate).
    assert (Hint : interruptible (OnChange_each edges (after_Step 256 4 (uno_pin2 4)))
                   = true).
    { destruct (OnChange_each_sync edges (after_Step 256 4 (uno_pin2 4)))
        as (_ & _ & ->). evaluate. }
    exists (mkMachine (OnChange_each edges (after_Step 256 4 (uno_pin2 4))) Idle
              [call_function 1024 256 true]).
    eexists. split; [|split].
    + apply (reachable_isr_each 256 _ edges _ _ uno_pin2_first_report).
      evaluate.
    + apply (isr_fire 0). exact Hint.
    + unfold preempt, OnChange, with_async. cbn [object asyncCount].
      rewrite OnChange_each_asyncCount by (split; evaluate).
      rewrite HN. evaluate.
  - destruct (reachable_polls 288 (constructed (uno_pin4 16)))
      with (n := Z.to_nat 4294967295) as (m & Hr & Hidle & Hint & Hmask & Hs);
      [reflexivity|reflexivity|evaluate|split; evaluate|].
    destruct (poll_toggle 288 _ m Hr Hidle Hint)
      as (m2 & m3 & Hr2 & Hstep & H2 & H3 & _).
    { rewrite Hmask. evaluate. }
    exists m2, m3. split; [exact Hr2|]. split; [exact Hstep|].
    rewrite H2, H3, Hs, Z2Nat.id by discriminate. evaluate.
  - destruct (reachable_rounds 256 _ 0 _ uno_pin2_first_report)
      with (n := Z.to_nat 4294967294) as (m & Hr & Hidle & Hint & Hsync & Ha);
      [reflexivity|evaluate|evaluate|split; evaluate|].
    cbn [object] in Ha.
    destruct (interrupt_round 256 _ _ m 0 Hr Hidle Hint Hsync)
      as (m2 & m3 & Hr2 & Hstep & H2 & _ & _ & _ & H3).
    exists m2, m3. split; [exact Hr2|]. split; [exact Hstep|].
    rewrite H2, H3, Hsync, Ha, Z2Nat.id by discriminate. evaluate.
  - exists (mkMachine (after_Step 288 16 (uno_pin4 16)) Idle
              ([] ++ [call_functionData 2048 288 true 77])).
    split; [apply (Step_is_a_Step_call 288 16 (uno_pin4 16))|]; evaluate.
Qed.

Lemma counters_while_not_wrapped_witness :
  (0 <= digitalPinToInterrupt 2 /\
   1 + Z.of_nat (2 + 0) < UINT32_MOD /\
   syncCount (OnChange_each [0; 4] (after_Step 256 4 (uno_pin2 4)))
   <= asyncCount (OnChange_each [0; 4] (after_Step 256 4 (uno_pin2 4)))) /\
  (digitalPinToInterrupt 4 < 0 /\
   asyncCount (after_Step 288 16 (uno_pin4 16)) = asyncCount zeroed).
Proof.
  assert (Hi : 0 <= digitalPinToInterrupt 2) by evaluate.
  assert (Hk : 1 + Z.of_nat (2 + 0) < UINT32_MOD) by evaluate.
  assert (Hint : interruptible (after_Step 256 4 (uno_pin2 4)) = true) by evaluate.
  assert (Hp : digitalPinToInterrupt 4 < 0) by evaluate.
  split.
  - split; [exact Hi|]. split; [exact Hk|].
    exact (proj1 (proj2 (proj2 (proj2
                   (proj1 (counters_while_not_wrapped 256 2 1024 0 0 4 zeroed
                             power_on (2 + 0) _
                             (reachable_isr_each 256 _ [0; 4] _ _
                                uno_pin2_first_report Hint))
                      Hi)))
                    Hk)).
  - split; [exact Hp|].
    exact (proj1 (proj2 (proj2 (proj2 (counters_while_not_wrapped 288 4 0 2048 77
                                         16 zeroed power_on 0 _
                                         uno_pin4_first_report)
                                  Hp)))).
Defined.

Lemma destruction_detaches_witness :
  interruptible (uno_pin2 4) = true /\
  raise (digitalPinToInterrupt 2)
    (DigitalInput_delete (uno_pin2 4)
       (snd (DigitalInput_of_function 256 2 1024 4 zeroed power_on)))
  = (None,
     DigitalInput_delete (uno_pin2 4)
       (snd (DigitalInput_of_function 256 2 1024 4 zeroed power_on))) /\
  interruptible (uno_pin4 16) = false /\
  DigitalInput_delete (uno_pin4 16)
    (snd (DigitalInput_of_function 256 2 1024 4 zeroed power_on))
  = snd (DigitalInput_of_function 256 2 1024 4 zeroed power_on).
Proof.
  assert (H2 : interruptible (uno_pin2 4) = true) by evaluate.
  assert (H4 : interruptible (uno_pin4 16) = false) by evaluate.
  split; [exact H2|]. split; [|split; [exact H4|]].
  - exact (proj1 (proj2 (proj1 (destruction_detaches 256 2 1024 0 0 4 zeroed
                                  power_on
                                  (snd (DigitalInput_of_function 256 2 1024 4
                                          zeroed power_on)))
                           H2))).
  - apply (proj2 (destruction_detaches 288 4 0 2048 77 16 zeroed power_on
                    (snd (DigitalInput_of_function 256 2 1024 4 zeroed power_on)))
             H4).
    apply DigitalInput_new_valid, power_on_valid.
Defined.

End OnTheUno.

(* ===================================================================== *)
(** * Part III: further properties of the sources *)
(* ===================================================================== *)

(** ** The table: entry points, capacity, routing *)

Section MoreTrampoline.
Import meta.

Lemma Wrap_all_length : forall regs st,
  length (fst (Wrap_all regs st)) = length regs.
Proof.
  induction regs as [|[fd d] rest IH]; intros st; [reflexivity|].
  rewrite Wrap_all_cons. cbn [fst length]. f_equal. apply IH.
Qed.

(** X2.  The entry points returned by at most [BRIDGE_MAX_WRAPPERS]
    registrations are pairwise distinct, also when the same callback and
    token are registered more than once, and none of them is [nullptr]. *)
Theorem entry_points_distinct (regs : list (Z * Z)) :
  (length regs <= BRIDGE_MAX_WRAPPERS)%nat ->
  NoDup (fst (Wrap_all regs initial)) /\
  Forall (fun f => f <> null) (fst (Wrap_all regs initial)).
Proof.
  intros Hlen.
  destruct (Wrap_all_spec regs initial initial_settled) as (_ & _ & Hfs & _).
  { cbn. lia. }
  { cbn [uid initial]. lia. }
  cbn [uid initial] in Hfs.
  assert (Hk : forall (k : nat) f, fst (Wrap_all regs initial) !! k = Some f ->
                 f = Wrapper_instance k).
  { intros k f Hf.
    assert (Hlt : (k < length regs)%nat).
    { rewrite <- (Wrap_all_length regs initial).
      apply lookup_lt_is_Some. eauto. }
    rewrite (Hfs k Hlt) in Hf. injection Hf as <-. reflexivity. }
  split.
  - apply NoDup_alt. intros i j f Hi Hj.
    apply Hk in Hi. apply Hk in Hj. congruence.
  - apply Forall_lookup. intros k f Hf. rewrite (Hk k f Hf). discriminate.
Qed.

End MoreTrampoline.

Section Routing.
Import bridge.
Context {T : Target}.

Lemma DigitalInput_new_world this pin function functionData data reg mem w :
  wrappers (snd (DigitalInput_new this pin function functionData data reg mem w))
  = (if 0 <=? digitalPinToInterrupt pin
     then snd (meta.Wrap OnChange_entry this (wrappers w))
     else wrappers w) /\
  vectors (snd (DigitalInput_new this pin function functionData data reg mem w))
  = (if 0 <=? digitalPinToInterrupt pin
     then attachInterrupt (digitalPinToInterrupt pin)
            (fst (meta.Wrap OnChange_entry this (wrappers w))) (vectors w)
     else vectors w).
Proof.
  unfold DigitalInput_new.
  destruct (0 <=? digitalPinToInterrupt pin); [|split; reflexivity].
  destruct (meta.Wrap OnChange_entry this (wrappers w)). split; reflexivity.
Qed.

Lemma DigitalInput_new_settled this pin function functionData data reg mem w :
  meta.settled (wrappers w) ->
  meta.settled
    (wrappers (snd (DigitalInput_new this pin function functionData data reg mem w))).
Proof.
  intros Hs.
  destruct (DigitalInput_new_world this pin function functionData data reg mem w)
    as [-> _].
  destruct (0 <=? digitalPinToInterrupt pin); [|exact Hs].
  apply Wrap_settled, Hs.
Qed.

Lemma DigitalInput_new_uid this pin function functionData data reg mem w :
  meta.uid
    (wrappers (snd (DigitalInput_new this pin function functionData data reg mem w)))
  = meta.uid (wrappers w) + (if 0 <=? digitalPinToInterrupt pin then 1 else 0).
Proof.
  destruct (DigitalInput_new_world this pin function functionData data reg mem w)
    as [-> _].
  destruct (0 <=? digitalPinToInterrupt pin); [apply Wrap_uid|lia].
Qed.

Lemma perform_uid w op :
  meta.uid (wrappers w) <= meta.uid (wrappers (perform w op)).
Proof.
  destruct op as [this pin function functionData data reg mem|self];
    cbn [perform].
  - rewrite DigitalInput_new_uid.
    destruct (0 <=? digitalPinToInterrupt pin); lia.
  - cbn. lia.
Qed.

Lemma perform_all_uid : forall ops w,
  meta.uid (wrappers w) <= meta.uid (wrappers (perform_all ops w)).
Proof.
  induction ops as [|op ops IH]; intros w; [cbn; lia|].
  cbn [perform_all fold_left]. fold (perform_all ops (perform w op)).
  pose proof (perform_uid w op). pose proof (IH (perform w op)). lia.
Qed.

(** Construction on a pin with an interrupt attaches the object. *)
Lemma attached_new this pin function functionData data reg mem w :
  0 <= digitalPinToInterrupt pin ->
  meta.settled (wrappers w) ->
  0 <= meta.uid (wrappers w) < Z.of_nat meta.BRIDGE_MAX_WRAPPERS ->
  attached (snd (DigitalInput_new this pin function functionData data reg mem w))
    (digitalPinToInterrupt pin) this.
Proof.
  intros Hi Hs Hu.
  destruct (DigitalInput_new_world this pin function functionData data reg mem w)
    as [Hw Hv].
  replace (0 <=? digitalPinToInterrupt pin) with true in Hw, Hv
    by (symmetry; apply Z.leb_le; exact Hi).
  exists (Z.to_nat (meta.uid (wrappers w))).
  rewrite Hw, Hv, Z2Nat.id by lia. unfold attachInterrupt.
  rewrite lookup_insert_eq, Wrap_returns, Wrap_uid, Wrap_cell.
  rewrite decide_True by reflexivity. cbn [meta.functionData meta.data].
  pose proof (run_once_expanded (wrappers w) Hs (Z.to_nat (meta.uid (wrappers w))))
    as He.
  rewrite Z2Nat.id in He by lia. rewrite He by lia.
  repeat split. lia.
Qed.

(** What happens to other interrupts leaves the attachment alone. *)
Lemma attached_perform w op interruptId this :
  attached w interruptId this -> interrupt_of op <> interruptId ->
  attached (perform w op) interruptId this.
Proof.
  intros (k & Hv & Hk & Hf & Hd) Hne.
  destruct op as [this' pin function functionData data reg mem|self];
    cbn [perform interrupt_of] in *.
  - destruct (DigitalInput_new_world this' pin function functionData data reg mem w)
      as [Hw' Hv'].
    exists k. rewrite Hw', Hv'.
    destruct (0 <=? digitalPinToInterrupt pin); [|repeat split; assumption].
    unfold attachInterrupt. rewrite lookup_insert_ne by exact Hne.
    rewrite Wrap_uid, Wrap_cell, decide_False by lia.
    destruct (run_once_payload (wrappers w) (Z.of_nat k)) as [-> ->].
    repeat split; try assumption. lia.
  - exists k. unfold DigitalInput_delete, detachInterrupt. cbn [vectors wrappers].
    rewrite lookup_delete_ne by exact Hne. repeat split; assumption.
Qed.

Lemma attached_perform_all interruptId this : forall ops w,
  attached w interruptId this ->
  Forall (fun op => interrupt_of op <> interruptId) ops ->
  attached (perform_all ops w) interruptId this.
Proof.
  induction ops as [|op ops IH]; intros w Ha Hops; [exact Ha|].
  apply Forall_cons in Hops as [Hop Hops].
  cbn [perform_all fold_left]. fold (perform_all ops (perform w op)).
  apply IH; [apply attached_perform; assumption | exact Hops].
Qed.

(** An edge on an attached interrupt runs the interrupt routine of the
    object at the token, and of no other object. *)
Lemma attached_edge w interruptId this reg objects :
  attached w interruptId this ->
  snd (edge interruptId reg w objects) = alter (OnChange reg) this objects.
Proof.
  intros (k & Hv & _ & Hf & Hd). unfold edge, raise. rewrite Hv.
  cbn [meta.invoke meta.Wrapper]. rewrite !cell_touch, Hf, Hd.
  cbn [meta.callee meta.argument]. rewrite Z.eqb_refl. reflexivity.
Qed.

(** X3.  Once an object is constructed on a pin with an interrupt, an edge
    on that pin runs the interrupt routine of that object and touches no
    other, whatever objects are constructed and destroyed afterwards on pins
    of other interrupts, as long as the registrations fit the table. *)
Theorem interrupts_reach_their_object
    this pin function functionData data reg mem w ops reg' objects :
  0 <= digitalPinToInterrupt pin ->
  meta.settled (wrappers w) ->
  0 <= meta.uid (wrappers w) ->
  Forall (fun op => interrupt_of op <> digitalPinToInterrupt pin) ops ->
  meta.uid
    (wrappers
       (perform_all ops
          (snd (DigitalInput_new this pin function functionData data reg mem w))))
  <= Z.of_nat meta.BRIDGE_MAX_WRAPPERS ->
  snd (edge (digitalPinToInterrupt pin) reg'
         (perform_all ops
            (snd (DigitalInput_new this pin function functionData data reg mem w)))
         objects)
  = alter (OnChange reg') this objects.
Proof.
  intros Hi Hs Hu Hops Hfit.
  apply attached_edge, attached_perform_all; [|exact Hops].
  apply attached_new; try assumption.
  pose proof (perform_all_uid ops
                (snd (DigitalInput_new this pin function functionData data reg mem w)))
    as Hmono.
  rewrite DigitalInput_new_uid in Hmono.
  replace (0 <=? digitalPinToInterrupt pin) with true in Hmono
    by (symmetry; apply Z.leb_le; exact Hi).
  lia.
Qed.

(** X4.  An interrupt belongs to the pin, not to the object: of two
    objects constructed on the same pin only the second receives the edges,
    and destroying the first cuts the second off as well. *)
Theorem one_object_per_interrupt
    this_a this_b pin function functionData data reg mem w reg' objects :
  0 <= digitalPinToInterrupt pin ->
  meta.settled (wrappers w) ->
  0 <= meta.uid (wrappers w) ->
  meta.uid (wrappers w) + 2 <= Z.of_nat meta.BRIDGE_MAX_WRAPPERS ->
  let a := DigitalInput_new this_a pin function functionData data reg mem w in
  let b := DigitalInput_new this_b pin function functionData data reg mem (snd a) in
  snd (edge (digitalPinToInterrupt pin) reg' (snd b) objects)
  = alter (OnChange reg') this_b objects /\
  edge (digitalPinToInterrupt pin) reg' (DigitalInput_delete (fst a) (snd b)) objects
  = (DigitalInput_delete (fst a) (snd b), objects).
Proof.
  intros Hi Hs Hu Hroom a b. split.
  - apply attached_edge. subst b. apply attached_new.
    + exact Hi.
    + subst a. apply DigitalInput_new_settled, Hs.
    + subst a. rewrite DigitalInput_new_uid.
      replace (0 <=? digitalPinToInterrupt pin) with true
        by (symmetry; apply Z.leb_le; exact Hi).
      lia.
  - destruct (DigitalInput_new_pin this_a pin function functionData data reg mem w)
      as [Hpin _].
    fold a in Hpin. unfold edge.
    rewrite raise_detached; [reflexivity|].
    unfold DigitalInput_delete, detachInterrupt. cbn [vectors].
    rewrite Hpin. apply lookup_delete_eq.
Qed.



End Routing.

(** ** The tracker: what is reported, and when *)

Section MoreTracker.
Import bridge.
Context {T : Target}.

Lemma replay_snoc listener n state :
  replay listener (S n) state
  = replay listener n state ++ [listener (negated (S n) state)].
Proof.
  unfold replay. rewrite seq_S, List.map_app. reflexivity.
Qed.

Lemma replay_lookup listener n state (i : nat) :
  (i < n)%nat ->
  replay listener n state !! i = Some (listener (negated (S i) state)).
Proof.
  intros Hi. unfold replay.
  change (List.map ?f ?l) with (f <$> l).
  rewrite list_lookup_fmap, lookup_seq_lt by exact Hi. reflexivity.
Qed.

Lemma replay_ext f g n state :
  (forall s, f s = g s) -> replay f n state = replay g n state.
Proof. intros H. unfold replay. apply List.map_ext. intros i. apply H. Qed.


Lemma same_config_trans a b c :
  same_config a b -> same_config b c -> same_config a c.
Proof.
  unfold same_config. intros (?&?&?&?&?&?&?) (?&?&?&?&?&?&?).
  repeat split; congruence.
Qed.

Lemma active_handler_config this a b state :
  same_config a b -> active_handler this a state = active_handler this b state.
Proof.
  intros (_ & _ & Hf & Hfd & Hd & _). unfold active_handler.
  rewrite Hf, Hfd, Hd. reflexivity.
Qed.

Lemma main_step_config this m m' :
  main_step this m m' ->
  same_config (object m') (object m) /\
  asyncCount (object m') = asyncCount (object m) /\
  asyncState (object m') = asyncState (object m).
Proof.
  intros [reg m0 Hidle | m0 m1 Hturn].
  - unfold enter.
    destruct (interruptible (object m0));
      [|destruct (Bool.eqb _ _)]; destruct (0 <? _);
      cbn [object]; repeat split.
  - unfold turn in Hturn. destruct (at_ m0) as [|count change c]; [discriminate|].
    destruct (c <? change).
    + destruct (c + 1 <=? INT_MAX); [|discriminate].
      injection Hturn as <-. repeat split.
    + injection Hturn as <-. repeat split.
Qed.

Lemma isr_step_config m m' :
  isr_step m m' ->
  same_config (object m') (object m) /\
  syncCount (object m') = syncCount (object m) /\
  syncState (object m') = syncState (object m) /\
  calls m' = calls m /\ at_ m' = at_ m.
Proof. intros [reg m0 _]. repeat split. Qed.

(** The calls made so far replay the negations of [syncState] from the
    start on, and [syncState] is where the last call left it. *)
Lemma reachable_replay this m0 k m :
  reachable this m0 k m ->
  calls m0 = [] ->
  same_config (object m) (object m0) /\
  calls m = replay (active_handler this (object m0)) (length (calls m))
              (syncState (object m0)) /\
  syncState (object m)
  = negated (length (calls m)) (syncState (object m0)).
Proof.
  intros Hr H0.
  induction Hr as [|k m m' _ IH Hstep|k m m' _ IH Hstep].
  - rewrite H0. repeat split.
  - destruct IH as (Hc & Hcalls & Hs).
    destruct Hstep as [reg m Hidle | m m' Hturn].
    + assert (E : object (enter reg m) = object m /\ calls (enter reg m) = calls m).
      { unfold enter.
        destruct (interruptible (object m));
          [|destruct (Bool.eqb _ _)]; destruct (0 <? _); split; reflexivity. }
      destruct E as [-> ->]. split; [exact Hc|split; assumption].
    + unfold turn in Hturn.
      destruct (at_ m) as [|count change c]; [discriminate|].
      destruct (c <? change).
      * destruct (c + 1 <=? INT_MAX); [|discriminate].
        injection Hturn as <-. cbn [object calls].
        rewrite length_app. cbn [length].
        replace (length (calls m) + 1)%nat with (S (length (calls m))) by lia.
        split; [|split].
        -- eapply same_config_trans; [|exact Hc]. repeat split.
        -- rewrite replay_snoc, <- Hcalls. f_equal. f_equal.
           cbn [syncState with_syncState].
           rewrite Hs, <- negated_S.
           apply active_handler_config.
           eapply same_config_trans; [|exact Hc]. repeat split.
        -- cbn [syncState with_syncState]. rewrite Hs. reflexivity.
      * injection Hturn as <-. cbn [object calls].
        split; [|split; assumption].
        eapply same_config_trans; [|exact Hc]. repeat split.
  - destruct IH as (Hc & Hcalls & Hs).
    destruct (isr_step_config m m' Hstep) as (Hc' & _ & Hs' & Hcalls' & _).
    rewrite Hcalls', Hs'. split; [|split; assumption].
    eapply same_config_trans; eassumption.
Qed.

(** X6.  In either mode and under any interleaving of [Step] with the
    interrupt routine, the calls made since construction alternate: the
    first reports the level the constructor read, each further one the
    negation of the one before, always through the listener, object address
    and token given at construction; [GetState] answers what the last call
    reported (before the first call, the negation of the level read), and
    [GetPin] the pin. *)
Theorem reports_alternate
    this pin function functionData data reg mem w (k : nat) m :
  let self := fst (DigitalInput_new this pin function functionData data reg mem w) in
  let level := raw_level reg (digitalPinToBitMask pin) in
  reachable this (constructed self) k m ->
  (forall (i : nat) made, calls m !! i = Some made ->
     made = active_handler this self (negated i level)) /\
  GetState (object m) = negated (length (calls m)) (negb level) /\
  GetPin (object m) = pin.
Proof.
  intros self level Hr.
  destruct (reachable_replay this _ k m Hr eq_refl) as (Hc & Hcalls & Hs).
  cbn [object constructed] in Hc, Hcalls, Hs.
  destruct (DigitalInput_new_sync this pin function functionData data reg mem w)
    as (Hs0 & _).
  destruct (DigitalInput_new_pin this pin function functionData data reg mem w)
    as (Hpin & _).
  fold self in Hs0, Hpin. fold level in Hs0. rewrite Hs0 in Hcalls, Hs.
  split; [|split].
  - intros i made Hi.
    assert (Hlt : (i < length (calls m))%nat)
      by (apply lookup_lt_is_Some; eauto).
    rewrite Hcalls, replay_lookup in Hi by exact Hlt.
    injection Hi as <-. f_equal.
    rewrite <- negated_S, <- negated_shift, negb_involutive. reflexivity.
  - exact Hs.
  - unfold GetPin. destruct Hc as (_ & _ & _ & _ & _ & -> & _). exact Hpin.
Qed.

(** X7.  An object made by the public constructor that takes a listener
    with user data calls that listener only, each time with its own address
    and the user data it was given. *)
Theorem user_data_returned_verbatim
    this pin functionData data reg mem w (k : nat) m :
  reachable this
    (constructed (fst (DigitalInput_of_functionData this pin functionData data
                         reg mem w)))
    k m ->
  Forall (fun made => exists state,
            made = call_functionData functionData this state data)
    (calls m).
Proof.
  intros Hr. apply Forall_lookup. intros i made Hi.
  destruct (reachable_replay this _ k m Hr eq_refl) as (_ & Hcalls & _).
  assert (Hlt : (i < length (calls m))%nat) by (apply lookup_lt_is_Some; eauto).
  rewrite Hcalls, replay_lookup in Hi by exact Hlt.
  injection Hi as <-. eexists.
  unfold active_handler, DigitalInput_of_functionData. cbn [object constructed].
  destruct (Z_le_gt_dec 0 (digitalPinToInterrupt pin)) as [Hp|Hp].
  - rewrite DigitalInput_new_interrupt by exact Hp. reflexivity.
  - rewrite DigitalInput_new_polling by lia. reflexivity.
Qed.

(** X8.  [Step] does not test the listener it calls for [nullptr]: an
    object made from a null [Function] calls through the other pointer,
    which the delegating constructor set to [nullptr] as well, at its first
    [Step]. *)
Theorem null_listener_is_called this pin reg mem w reg' :
  raw_level reg' (digitalPinToBitMask pin) = raw_level reg (digitalPinToBitMask pin) ->
  exists self',
    Step this reg' (fst (DigitalInput_of_function this pin 0 reg mem w))
    = Done (self',
            [call_functionData 0 this (raw_level reg (digitalPinToBitMask pin)) 0]).
Proof.
  intros Hsame. eexists. unfold DigitalInput_of_function.
  rewrite (first_Step this pin 0 0 0 reg mem w reg' Hsame).
  f_equal. f_equal. f_equal. unfold active_handler.
  destruct (Z_le_gt_dec 0 (digitalPinToInterrupt pin)) as [Hp|Hp].
  - rewrite DigitalInput_new_interrupt by exact Hp. reflexivity.
  - rewrite DigitalInput_new_polling by lia. reflexivity.
Qed.

End MoreTracker.

(** ** The tracker: nothing lost, nothing reported twice *)

Section Reconciliation.
Import bridge.
Context {T : Target}.

Lemma main_step_counted this k m m' :
  catching_up k m -> 1 + Z.of_nat k < UINT32_MOD -> counted m ->
  main_step this m m' -> counted m'.
Proof.
  intros (Hint & Ha & Hs & Hat) Hk Hcnt Hstep. unfold counted in *.
  destruct Hstep as [reg m Hidle | m m' Hturn].
  - rewrite Hidle in Hcnt. unfold enter. rewrite Hint.
    rewrite uint32_small by (unfold is_uint32; lia).
    destruct (0 <? asyncCount (object m) - syncCount (object m)) eqn:E;
      cbn [at_ object calls]; [|exact Hcnt].
    apply Z.ltb_lt in E. lia.
  - unfold turn in Hturn.
    destruct (at_ m) as [|count change c]; [discriminate|].
    destruct Hcnt as (Hlen & Hc & Hcount).
    destruct (c <? change) eqn:E.
    + destruct (c + 1 <=? INT_MAX); [|discriminate].
      injection Hturn as <-. apply Z.ltb_lt in E.
      cbn [at_ object calls syncCount with_syncState].
      rewrite length_app. cbn [length]. lia.
    + injection Hturn as <-. apply Z.ltb_ge in E.
      cbn [at_ object calls syncCount with_syncCount]. lia.
Qed.

Lemma isr_step_counted m m' : counted m -> isr_step m m' -> counted m'.
Proof. intros Hcnt Hstep. destruct Hstep as [reg m _]. exact Hcnt. Qed.

Lemma reachable_counted this m0 k m :
  reachable this m0 k m -> catching_up 0 m0 -> counted m0 ->
  1 + Z.of_nat k < UINT32_MOD -> catching_up k m /\ counted m.
Proof.
  intros Hr Hinv0 Hcnt0.
  induction Hr as [|k m m' _ IH Hstep|k m m' _ IH Hstep]; intros Hk.
  - split; assumption.
  - destruct (IH Hk) as [Hinv Hcnt]. split.
    + apply (main_step_catching_up this k m m' Hinv Hk Hstep).
    + apply (main_step_counted this k m m' Hinv Hk Hcnt Hstep).
  - destruct IH as [Hinv Hcnt]; [lia|]. split.
    + apply (isr_step_catching_up k m m' Hinv); [lia|exact Hstep].
    + apply (isr_step_counted m m' Hcnt Hstep).
Qed.







Lemma in_Step_length this m m' :
  in_Step this m m' ->
  forall count change c,
    at_ m = Looping count change c -> 0 <= c <= change ->
    Z.of_nat (length (calls m')) = Z.of_nat (length (calls m)) + (change - c).
Proof.
  induction 1 as [m Hidle | m m1 m' Hturn Hrest IH | reg m m' Hne Hint _ IH];
    intros count change c Hat Hc.
  - congruence.
  - unfold turn in Hturn. rewrite Hat in Hturn.
    destruct (c <? change) eqn:E.
    + destruct (c + 1 <=? INT_MAX); [|discriminate].
      injection Hturn as <-. apply Z.ltb_lt in E.
      rewrite (IH count change (c + 1) eq_refl) by lia.
      cbn [calls]. rewrite length_app. cbn [length]. lia.
    + injection Hturn as <-. apply Z.ltb_ge in E.
      rewrite (in_Step_idle this _ m' Hrest eq_refl). cbn [calls]. lia.
  - rewrite (IH count change c Hat Hc). reflexivity.
Qed.

(** X10.  Interrupt-driven mode, fewer than [2^32 - 1] runs of the
    interrupt routine since construction: whenever the main context is
    outside [Step], the listener has been called exactly [syncCount] times;
    and a call of [Step] entered after [k] runs of the interrupt routine
    returns with the listener called exactly [1 + k] times since
    construction, once for the level at construction and once for every
    edge, none lost and none reported twice. *)
Theorem every_edge_is_reported_once
    this pin function functionData data reg mem w (k : nat) m :
  0 <= digitalPinToInterrupt pin ->
  reachable this
    (constructed (fst (DigitalInput_new this pin function functionData data reg mem w)))
    k m ->
  1 + Z.of_nat k < UINT32_MOD ->
  at_ m = Idle ->
  Z.of_nat (length (calls m)) = syncCount (object m) /\
  forall m', Step_call this m m' ->
    Z.of_nat (length (calls m')) = 1 + Z.of_nat k.
Proof.
  intros Hi Hreach Hk Hidle.
  destruct (reachable_counted this _ k m Hreach) as [Hinv Hcnt]; try exact Hk.
  { apply constructed_catching_up, Hi. }
  { unfold counted, constructed. cbn [at_ calls object length].
    rewrite DigitalInput_new_interrupt by exact Hi. reflexivity. }
  destruct Hinv as (Hint & Ha & Hs & _).
  unfold counted in Hcnt. rewrite Hidle in Hcnt.
  split; [exact Hcnt|].
  intros m' (_ & reg' & Hin). unfold enter in Hin. rewrite Hint in Hin.
  rewrite uint32_small in Hin by (unfold is_uint32; lia).
  destruct (0 <? asyncCount (object m) - syncCount (object m)) eqn:E.
  - apply Z.ltb_lt in E.
    rewrite (in_Step_length this _ m' Hin _ _ _ eq_refl) by lia.
    cbn [calls]. lia.
  - apply Z.ltb_ge in E.
    rewrite (in_Step_idle this _ m' Hin eq_refl). cbn [calls]. lia.
Qed.

(** X11.  A [Step] that returns leaves nothing pending: a second [Step]
    right after it, no run of the interrupt routine in between and the port
    reading the same, makes no call and changes nothing. *)
Theorem Step_twice this reg self self' made :
  Step this reg self = Done (self', made) ->
  Step this reg self' = Done (self', []).
Proof.
  assert (Hrec : forall count change,
            reconcile this self count change = Done (self', made) ->
            ((0 <? change) = false /\ self' = self /\ made = []) \/
            ((0 <? change) = true /\ syncCount self' = count /\
             exists final, self' = with_syncCount count (with_syncState final self) /\
               catch_up (S (Z.to_nat change)) (active_handler this self) change 0
                 (syncState self) = Done (final, made))).
  { intros count change H. unfold reconcile in H.
    destruct (0 <? change); [right|left].
    - destruct (catch_up _ _ _ _ _) as [[final made']| |] eqn:E; try discriminate.
      injection H as <- <-. split; [reflexivity|]. split; [reflexivity|].
      exists final. split; reflexivity.
    - injection H as <- <-. repeat split. }
  intros H. pose proof H as H'. rewrite Step_reconcile in H.
  destruct (interruptible self) eqn:Hi.
  - destruct (Hrec _ _ H) as [(_ & -> & ->)|(_ & Hc & final & -> & _)];
      [exact H'|].
    rewrite Step_reconcile. cbn [interruptible with_syncCount with_syncState
                                   asyncCount syncCount].
    rewrite Hi, Z.sub_diag. reflexivity.
  - destruct (Bool.eqb (raw_level reg (mask self)) (syncState self)) eqn:E.
    + destruct (Hrec _ _ H) as [(_ & -> & ->)|(Hpos & _)];
        [exact H'|discriminate].
    + destruct (Hrec _ _ H) as [(Hpos & _)|(_ & _ & final & -> & Hcatch)];
        [discriminate|].
      rewrite (catch_up_replay _ _ 1) in Hcatch
        by (pose proof INT_MAX_pos; cbn; lia).
      injection Hcatch as <- _.
      apply Step_polls_same; [exact Hi|].
      cbn [mask syncState with_syncCount with_syncState negated Nat.iter nat_rect].
      apply Bool.eqb_false_iff in E.
      destruct (raw_level reg (mask self)), (syncState self);
        try reflexivity; congruence.
Qed.



(** X13.  The catch-up is exact across the wrap of [asyncCount]: with [p]
    toggles pending in the [uint32_t] difference of the counters and one run
    of the interrupt routine for each element of [edges], the next [Step]
    makes exactly [p + length edges] calls, wherever the two counters stand,
    as long as that many fit the loop counter and 32 bits. *)
Theorem catch_up_across_the_wrap this reg self edges :
  interruptible self = true -> counters_ok self ->
  let pending :=
    uint32 (asyncCount self - syncCount self) + Z.of_nat (length edges) in
  0 < pending -> pending <= INT_MAX -> pending < UINT32_MOD ->
  Step this reg (OnChange_each edges self)
  = Done (with_syncCount (asyncCount (OnChange_each edges self))
            (with_syncState (negated (Z.to_nat pending) (syncState self))
               (OnChange_each edges self)),
          replay (active_handler this self) (Z.to_nat pending) (syncState self)).
Proof.
  intros Hi [Ha Hs] pending Hpos Hmax Hmod.
  destruct (OnChange_each_sync edges self) as (Hc & Hst & Hint).
  rewrite Step_reconcile, Hint, Hi, Hc.
  rewrite OnChange_each_asyncCount by exact Ha.
  assert (E : uint32 (uint32 (asyncCount self + Z.of_nat (length edges))
                      - syncCount self) = Z.of_nat (Z.to_nat pending)).
  { rewrite Z2Nat.id by lia. subst pending. unfold uint32, UINT32_MOD in *.
    rewrite Zminus_mod_idemp_l.
    replace (asyncCount self + Z.of_nat (length edges) - syncCount self)
      with (asyncCount self - syncCount self + Z.of_nat (length edges)) by lia.
    rewrite <- Zplus_mod_idemp_l. apply Z.mod_small. lia. }
  rewrite E, reconcile_replay by lia.
  rewrite Hst, OnChange_each_handler. reflexivity.
Qed.

(** The pointer [Step] calls through: [function] unless it is [nullptr],
    and [functionData] then. *)
Lemma called_pointer_active this self state :
  called_pointer (active_handler this self state)
  = if function self =? 0 then functionData self else function self.
Proof. unfold active_handler. destruct (function self =? 0); reflexivity. Qed.

Lemma replay_called_pointer this self (n : nat) state :
  Forall (fun call => called_pointer call <> 0)
    (replay (active_handler this self) n state) <->
  (n = 0%nat \/ (function self = 0 -> functionData self <> 0)).
Proof.
  assert (Hp : forall s, called_pointer (active_handler this self s) <> 0 <->
                         (function self = 0 -> functionData self <> 0)).
  { intros s. rewrite called_pointer_active.
    destruct (Z.eqb_spec (function self) 0) as [E|E]; [tauto|].
    split; [intros _ E'; contradiction|intros _; exact E]. }
  split.
  - intros H. destruct n as [|n]; [left; reflexivity|right].
    rewrite replay_S in H. apply Forall_inv in H. exact (proj1 (Hp _) H).
  - intros [->|H]; [constructor|].
    unfold replay. apply List.Forall_forall. intros call Hin.
    apply in_map_iff in Hin. destruct Hin as (i & <- & _). apply Hp, H.
Qed.

(** X14.  [Step] is undefined in two cases and no other, the port
    register taken to be readable and the listener to return from each
    call: in interrupt-driven mode with more toggles pending than the loop
    counter can count; and, in either mode, with a toggle pending (a change
    of level read, in polling-only mode) while [function] and
    [functionData] are both [nullptr], when the call in the loop goes
    through [nullptr].  In every other case [Step] returns, each of its
    calls made through a listener pointer that is not [nullptr]. *)
Theorem Step_undefined_iff this reg self :
  ~ Step_defined this reg self <->
  (interruptible self = true /\
   INT_MAX < uint32 (asyncCount self - syncCount self)) \/
  (function self = 0 /\ functionData self = 0 /\
   (interruptible self = true /\
    0 < uint32 (asyncCount self - syncCount self) \/
    interruptible self = false /\
    raw_level reg (mask self) <> syncState self)).
Proof.
  assert (Hrec : forall count change, 0 <= change ->
            ((exists self' made,
                reconcile this self count change = Done (self', made) /\
                Forall (fun call => called_pointer call <> 0) made) <->
             change <= INT_MAX /\
             (0 < change -> function self = 0 -> functionData self <> 0))).
  { intros count change Hc. destruct (Z_le_gt_dec change INT_MAX) as [Hle|Hgt].
    - destruct (0 <? change) eqn:E.
      + apply Z.ltb_lt in E.
        pose proof (reconcile_replay this self count (Z.to_nat change)
                      ltac:(lia) ltac:(lia)) as Hr.
        rewrite Z2Nat.id in Hr by lia. rewrite Hr. split.
        * intros (self' & made & Heq & Hall). injection Heq as <- <-.
          apply replay_called_pointer in Hall.
          split; [exact Hle|]. destruct Hall as [Hn|Hp]; [lia|]. intros _. exact Hp.
        * intros [_ Hp]. eexists _, _. split; [reflexivity|].
          apply replay_called_pointer. right. apply Hp, E.
      + apply Z.ltb_ge in E. unfold reconcile.
        replace (0 <? change) with false by (symmetry; apply Z.ltb_ge; exact E).
        split.
        * intros _. split; [exact Hle|]. lia.
        * intros _. eexists _, _. split; [reflexivity|constructor].
    - rewrite reconcile_overflow by lia. split.
      + intros (self' & made & Heq & _). discriminate.
      + lia. }
  pose proof INT_MAX_pos as Hmax. unfold Step_defined. rewrite Step_reconcile.
  destruct (interruptible self).
  - rewrite Hrec by apply uint32_is_uint32.
    pose proof (uint32_is_uint32 (asyncCount self - syncCount self)) as Hu.
    destruct (Z.eq_dec (function self) 0) as [Ef|Ef];
      destruct (Z.eq_dec (functionData self) 0) as [Ed|Ed];
      split;
      try (intros Hn;
           destruct (Z_le_gt_dec
                       (uint32 (asyncCount self - syncCount self)) INT_MAX);
           [|left; split; [reflexivity|lia]]);
      try (intros [[_ Hover]|(Hf & Hd & [[_ Hpos]|[Hfalse _]])] [Hle Hp];
           first [lia | discriminate | contradiction | (apply Hp; assumption)]).
    + destruct (Z_lt_le_dec 0 (uint32 (asyncCount self - syncCount self))).
      * right. split; [exact Ef|]. split; [exact Ed|]. left.
        split; [reflexivity|assumption].
      * exfalso. apply Hn. split; [assumption|]. intros; lia.
    + exfalso. apply Hn. split; [assumption|]. intros _ _. exact Ed.
    + exfalso. apply Hn. split; [assumption|]. intros _ Hf. contradiction.
    + exfalso. apply Hn. split; [assumption|]. intros _ Hf. contradiction.
  - destruct (Bool.eqb (raw_level reg (mask self)) (syncState self)) eqn:Eq;
      rewrite Hrec by lia.
    + apply Bool.eqb_prop in Eq. split.
      * intros Hn. exfalso. apply Hn. split; [lia|]. intros; lia.
      * intros [[Hint _]|(_ & _ & [[Hint _]|[_ Hne]])]; try discriminate.
        contradiction.
    + apply Bool.eqb_false_iff in Eq. split.
      * intros Hn. right.
        destruct (Z.eq_dec (function self) 0) as [Ef|Ef];
          [destruct (Z.eq_dec (functionData self) 0) as [Ed|Ed]|].
        -- split; [exact Ef|]. split; [exact Ed|]. right. split; [reflexivity|exact Eq].
        -- exfalso. apply Hn. split; [lia|]. intros _ _. exact Ed.
        -- exfalso. apply Hn. split; [lia|]. intros _ Hf. contradiction.
      * intros [[Hint _]|(Hf & Hd & _)] [_ Hp]; [discriminate|].
        apply Hp; [lia|exact Hf|exact Hd].
Qed.

End Reconciliation.

(** ** tools.h: the port macros *)

Section PortMacros.

Lemma land_pow2 a i :
  0 <= i -> Z.land a (Z.shiftl 1 i) = if Z.testbit a i then Z.shiftl 1 i else 0.
Proof.
  intros Hi. rewrite Z.shiftl_1_l. apply Z.bits_inj'. intros j Hj.
  rewrite Z.land_spec, Z.pow2_bits_eqb by exact Hi.
  destruct (Z.eqb_spec i j) as [->|Hne].
  - destruct (Z.testbit a j) eqn:E.
    + rewrite Z.pow2_bits_true by exact Hj. reflexivity.
    + rewrite Z.bits_0. reflexivity.
  - rewrite andb_false_r.
    destruct (Z.testbit a i); [|rewrite Z.bits_0; reflexivity].
    rewrite Z.pow2_bits_false by (intros ->; contradiction). reflexivity.
Qed.

Lemma pow2_nonzero i : 0 <= i -> Z.shiftl 1 i <> 0.
Proof. intros Hi. rewrite Z.shiftl_1_l. apply Z.pow_nonzero; lia. Qed.

(** X15.  With the mask of one bit, as [digitalPinToBitMask] gives it,
    [BRIDGE_READ] yields that bit of the port register and nothing of the
    other bits; and [!BRIDGE_READ(port, mask)], which the macro expands
    without parentheses around the conditional, is still its negation. *)
Theorem BRIDGE_READ_one_bit reg i :
  0 <= i ->
  raw_level reg (Z.shiftl 1 i) = Z.testbit reg i /\
  bool_of_int (not_BRIDGE_READ reg (Z.shiftl 1 i)) = negb (Z.testbit reg i).
Proof.
  intros Hi. pose proof (pow2_nonzero i Hi) as Hnz.
  unfold raw_level, BRIDGE_READ, not_BRIDGE_READ, bool_of_int.
  rewrite land_pow2 by exact Hi.
  destruct (Z.testbit reg i).
  - destruct (Z.eqb_spec (Z.shiftl 1 i) 0); [contradiction|]. split; reflexivity.
  - split; reflexivity.
Qed.

Lemma testbit_uint8 z i :
  0 <= i -> Z.testbit (uint8 z) i = (i <? 8) && Z.testbit z i.
Proof.
  intros Hi. unfold uint8. change 256 with (2 ^ 8).
  destruct (Z.ltb_spec i 8) as [Hlt|Hge].
  - rewrite Z.mod_pow2_bits_low by exact Hlt. reflexivity.
  - rewrite Z.mod_pow2_bits_high by lia. reflexivity.
Qed.

Lemma load_insert address v mem a :
  load (<[address := v]> mem) a = if decide (address = a) then v else load mem a.
Proof.
  unfold load. destruct (decide (address = a)) as [->|Hne].
  - rewrite lookup_insert_eq. reflexivity.
  - rewrite lookup_insert_ne by exact Hne. reflexivity.
Qed.

Lemma or_assign_bits address mask mem a i :
  0 <= i ->
  Z.testbit (load (or_assign address mask mem) a) i
  = if decide (address = a)
    then (i <? 8) && (Z.testbit (load mem a) i || Z.testbit mask i)
    else Z.testbit (load mem a) i.
Proof.
  intros Hi. unfold or_assign. rewrite load_insert.
  destruct (decide (address = a)) as [->|]; [|reflexivity].
  rewrite testbit_uint8, Z.lor_spec by exact Hi. reflexivity.
Qed.

Lemma and_not_assign_bits address mask mem a i :
  0 <= i ->
  Z.testbit (load (and_not_assign address mask mem) a) i
  = if decide (address = a)
    then (i <? 8) && (Z.testbit (load mem a) i && negb (Z.testbit mask i))
    else Z.testbit (load mem a) i.
Proof.
  intros Hi. unfold and_not_assign. rewrite load_insert.
  destruct (decide (address = a)) as [->|]; [|reflexivity].
  rewrite testbit_uint8, Z.land_spec, Z.lnot_spec by exact Hi. reflexivity.
Qed.

(** X16.  A write macro for one pin leaves the other pins alone: with the
    one-bit mask of bit [i], [BRIDGE_WRITE_HIGH] sets and [BRIDGE_WRITE_LOW]
    clears bit [i] of the output register and both leave its other seven
    bits, and every other register, as they were. *)
Theorem write_macros_touch_one_bit base i mem a j :
  0 <= i < 8 -> 0 <= j < 8 ->
  Z.testbit (load (BRIDGE_WRITE_HIGH base (Z.shiftl 1 i) mem) (base + 2)) i = true /\
  Z.testbit (load (BRIDGE_WRITE_LOW base (Z.shiftl 1 i) mem) (base + 2)) i = false /\
  (j <> i ->
   Z.testbit (load (BRIDGE_WRITE_HIGH base (Z.shiftl 1 i) mem) (base + 2)) j
   = Z.testbit (load mem (base + 2)) j /\
   Z.testbit (load (BRIDGE_WRITE_LOW base (Z.shiftl 1 i) mem) (base + 2)) j
   = Z.testbit (load mem (base + 2)) j) /\
  (a <> base + 2 ->
   load (BRIDGE_WRITE_HIGH base (Z.shiftl 1 i) mem) a = load mem a /\
   load (BRIDGE_WRITE_LOW base (Z.shiftl 1 i) mem) a = load mem a).
Proof.
  intros Hi Hj. unfold BRIDGE_WRITE_HIGH, BRIDGE_WRITE_LOW.
  rewrite !or_assign_bits, !and_not_assign_bits by lia.
  rewrite !decide_True by reflexivity.
  rewrite Z.shiftl_1_l, !Z.pow2_bits_eqb by lia.
  rewrite Z.eqb_refl.
  replace (i <? 8) with true by (symmetry; apply Z.ltb_lt; lia).
  replace (j <? 8) with true by (symmetry; apply Z.ltb_lt; lia).
  split; [rewrite orb_true_r; reflexivity|].
  split; [rewrite andb_false_r; reflexivity|].
  split.
  - intros Hne.
    replace (i =? j) with false by (symmetry; apply Z.eqb_neq; lia).
    cbn [negb]. rewrite orb_false_r, andb_true_r. split; reflexivity.
  - intros Ha. unfold or_assign, and_not_assign. rewrite !load_insert.
    rewrite !decide_False by congruence. split; reflexivity.
Qed.

Lemma uint8_bits_inj a b :
  (forall i, 0 <= i -> Z.testbit a i = Z.testbit b i) -> a = b.
Proof. apply Z.bits_inj'. Qed.

(** X17.  On one pin the last write wins: [BRIDGE_WRITE_LOW] after
    [BRIDGE_WRITE_HIGH] with the same mask leaves the registers as
    [BRIDGE_WRITE_LOW] alone does, [BRIDGE_WRITE_HIGH] after
    [BRIDGE_WRITE_LOW] as [BRIDGE_WRITE_HIGH] alone, and writing twice is
    writing once. *)
Theorem last_write_wins base mask mem :
  BRIDGE_WRITE_LOW base mask (BRIDGE_WRITE_HIGH base mask mem)
  = BRIDGE_WRITE_LOW base mask mem /\
  BRIDGE_WRITE_HIGH base mask (BRIDGE_WRITE_LOW base mask mem)
  = BRIDGE_WRITE_HIGH base mask mem /\
  BRIDGE_WRITE_HIGH base mask (BRIDGE_WRITE_HIGH base mask mem)
  = BRIDGE_WRITE_HIGH base mask mem /\
  BRIDGE_WRITE_LOW base mask (BRIDGE_WRITE_LOW base mask mem)
  = BRIDGE_WRITE_LOW base mask mem.
Proof.
  unfold BRIDGE_WRITE_LOW, BRIDGE_WRITE_HIGH, and_not_assign, or_assign.
  rewrite !load_insert, !decide_True by reflexivity.
  rewrite !insert_insert_eq.
  repeat split; f_equal; apply uint8_bits_inj; intros i Hi;
    rewrite !testbit_uint8 by exact Hi;
    repeat first [rewrite Z.land_spec | rewrite Z.lor_spec
                 | rewrite Z.lnot_spec by exact Hi
                 | rewrite testbit_uint8 by exact Hi];
    destruct (i <? 8), (Z.testbit (load mem (base + 2)) i), (Z.testbit mask i);
    reflexivity.
Qed.

(** X18.  [BRIDGE_MAKE_INPUT] clears the bits of the mask in the direction
    register and in the output register as well, so the pin is left without
    pull-up; [BRIDGE_MAKE_OUTPUT] after it finds the output bit cleared, so
    the pin then drives low whatever was written to it before.  The input
    register and the bits outside the mask are as they were. *)
Theorem make_input_clears_the_output_bit base mask mem i :
  0 <= i < 8 -> Z.testbit mask i = true ->
  let input := BRIDGE_MAKE_INPUT base mask mem in
  let output := BRIDGE_MAKE_OUTPUT base mask input in
  Z.testbit (load input (base + 1)) i = false /\
  Z.testbit (load input (base + 2)) i = false /\
  Z.testbit (load output (base + 1)) i = true /\
  Z.testbit (load output (base + 2)) i = false /\
  load output base = load mem base /\
  (forall j, 0 <= j < 8 -> Z.testbit mask j = false ->
     Z.testbit (load output (base + 1)) j = Z.testbit (load mem (base + 1)) j /\
     Z.testbit (load output (base + 2)) j = Z.testbit (load mem (base + 2)) j).
Proof.
  intros Hi Hm input output. subst output input.
  unfold BRIDGE_MAKE_OUTPUT, BRIDGE_MAKE_INPUT.
  assert (H8 : (i <? 8) = true) by (apply Z.ltb_lt; lia).
  assert (Hbits : forall k a,
            0 <= k ->
            Z.testbit
              (load (or_assign (base + 1) mask
                       (and_not_assign (base + 2) mask
                          (and_not_assign (base + 1) mask mem))) a) k
            = if decide (a = base + 1)
              then (k <? 8) && (Z.testbit (load mem a) k && negb (Z.testbit mask k)
                                || Z.testbit mask k)
              else if decide (a = base + 2)
              then (k <? 8) && (Z.testbit (load mem a) k && negb (Z.testbit mask k))
              else Z.testbit (load mem a) k).
  { intros k a Hk. rewrite or_assign_bits, !and_not_assign_bits by exact Hk.
    repeat (destruct (decide _); try lia); subst;
      destruct (k <? 8), (Z.testbit (load mem _) k), (Z.testbit mask k);
      reflexivity. }
  split; [|split; [|split; [|split; [|split]]]].
  - rewrite !and_not_assign_bits by lia.
    repeat (destruct (decide _); try lia).
    rewrite Hm, H8. try (destruct (Z.testbit (load mem _) i); reflexivity).
  - rewrite !and_not_assign_bits by lia.
    repeat (destruct (decide _); try lia).
    rewrite Hm, H8. try (destruct (Z.testbit (load mem _) i); reflexivity).
  - rewrite Hbits by lia. rewrite decide_True by reflexivity.
    rewrite Hm, H8. try (destruct (Z.testbit (load mem _) i); reflexivity).
  - rewrite Hbits by lia. rewrite decide_False by lia.
    rewrite decide_True by reflexivity.
    rewrite Hm, H8. try (destruct (Z.testbit (load mem _) i); reflexivity).
  - unfold or_assign, and_not_assign. rewrite !load_insert.
    repeat (destruct (decide _); try lia); try reflexivity.
  - intros j Hj Hmj.
    assert (Hj8 : (j <? 8) = true) by (apply Z.ltb_lt; lia).
    rewrite !Hbits by lia. rewrite decide_True by reflexivity.
    rewrite decide_False by lia. rewrite decide_True by reflexivity.
    rewrite Hmj, Hj8.
    split; destruct (Z.testbit (load mem _) j); reflexivity.
Qed.

End PortMacros.

(** ** On the Uno, continued *)

Section MoreOnTheUno.
Import bridge.

Ltac evaluated :=
  vm_compute; first [reflexivity | discriminate | (intro; discriminate)].

Lemma indices_after_the_first_in_table_witness :
  exists used,
    meta.touched
      (snd (meta.invoke_all (List.map meta.Wrapper_instance [2; 0]%nat)
              (snd (meta.Wrap_all three_registrations meta.initial))))
    = Z.of_nat meta.BRIDGE_MAX_WRAPPERS :: used /\
    Forall meta.in_table used.
Proof.
  apply (indices_after_the_first_in_table three_registrations [2; 0]%nat).
  - discriminate.
  - vm_compute. lia.
  - repeat constructor.
Defined.

Lemma entry_points_distinct_witness :
  NoDup (fst (meta.Wrap_all three_registrations meta.initial)) /\
  Forall (fun f => f <> meta.null)
    (fst (meta.Wrap_all three_registrations meta.initial)).
Proof.
  apply entry_points_distinct. vm_compute. lia.
Defined.

Lemma interrupts_reach_their_object_witness :
  Forall (fun op => interrupt_of op <> digitalPinToInterrupt 2)
    uno_comings_and_goings /\
  snd (edge (digitalPinToInterrupt 2) 0
         (perform_all uno_comings_and_goings
            (snd (DigitalInput_new 256 2 1024 0 0 4 zeroed power_on)))
         {[256 := uno_pin2 4; 288 := uno_pin4 16]})
  = alter (OnChange 0) 256 {[256 := uno_pin2 4; 288 := uno_pin4 16]}.
Proof.
  assert (Hops : Forall (fun op => interrupt_of op <> digitalPinToInterrupt 2)
                   uno_comings_and_goings)
    by (repeat constructor; evaluated).
  split; [exact Hops|].
  apply interrupts_reach_their_object.
  - evaluated.
  - exact initial_settled.
  - evaluated.
  - exact Hops.
  - evaluated.
Defined.

Lemma one_object_per_interrupt_witness :
  snd (edge (digitalPinToInterrupt 2) 0
         (snd (DigitalInput_new 320 2 1024 0 0 4 zeroed
                 (snd (DigitalInput_new 256 2 1024 0 0 4 zeroed power_on))))
         {[256 := uno_pin2 4; 320 := uno_pin2 4]})
  = alter (OnChange 0) 320 {[256 := uno_pin2 4; 320 := uno_pin2 4]}.
Proof.
  apply (one_object_per_interrupt 256 320 2 1024 0 0 4 zeroed power_on 0
           {[256 := uno_pin2 4; 320 := uno_pin2 4]}).
  - evaluated.
  - exact initial_settled.
  - evaluated.
  - evaluated.
Defined.


Lemma reports_alternate_witness :
  GetState (after_Step 256 4 (uno_pin2 4))
  = negated 1 (negb (raw_level 4 (digitalPinToBitMask 2))) /\
  GetPin (after_Step 256 4 (uno_pin2 4)) = 2.
Proof.
  exact (proj2 (reports_alternate 256 2 1024 0 0 4 zeroed power_on 0 _
                  uno_pin2_first_report)).
Defined.

Lemma user_data_returned_verbatim_witness :
  Forall (fun made => exists state, made = call_functionData 2048 288 state 77)
    [call_functionData 2048 288 true 77].
Proof.
  exact (user_data_returned_verbatim 288 4 2048 77 16 zeroed power_on 0 _
           uno_pin4_first_report).
Defined.

Lemma null_listener_is_called_witness :
  raw_level 4 (digitalPinToBitMask 2) = raw_level 4 (digitalPinToBitMask 2) /\
  exists self',
    Step 256 4 (fst (DigitalInput_of_function 256 2 0 4 zeroed power_on))
    = Done (self', [call_functionData 0 256 (raw_level 4 (digitalPinToBitMask 2)) 0]).
Proof.
  split; [reflexivity|].
  exact (null_listener_is_called 256 2 4 zeroed power_on 4 eq_refl).
Defined.


Lemma every_edge_is_reported_once_witness :
  0 <= digitalPinToInterrupt 2 /\
  1 + Z.of_nat (length [0; 4] + 0) < UINT32_MOD /\
  Z.of_nat (length [call_function 1024 256 true])
  = syncCount (OnChange_each [0; 4] (after_Step 256 4 (uno_pin2 4))).
Proof.
  assert (Hi : 0 <= digitalPinToInterrupt 2) by evaluated.
  assert (Hk : 1 + Z.of_nat (length [0; 4] + 0) < UINT32_MOD) by evaluated.
  assert (Hint : interruptible (after_Step 256 4 (uno_pin2 4)) = true)
    by evaluated.
  split; [exact Hi|]. split; [exact Hk|].
  exact (proj1 (every_edge_is_reported_once 256 2 1024 0 0 4 zeroed power_on
                  (length [0; 4] + 0) _ Hi
                  (reachable_isr_each 256 _ [0; 4] _ _ uno_pin2_first_report Hint)
                  Hk eq_refl)).
Defined.

Lemma Step_twice_witness :
  Step 256 4 (uno_pin2 4)
  = Done (after_Step 256 4 (uno_pin2 4), [call_function 1024 256 true]) /\
  Step 256 4 (after_Step 256 4 (uno_pin2 4))
  = Done (after_Step 256 4 (uno_pin2 4), []).
Proof.
  assert (H : Step 256 4 (uno_pin2 4)
              = Done (after_Step 256 4 (uno_pin2 4), [call_function 1024 256 true]))
    by evaluated.
  split; [exact H|]. exact (Step_twice 256 4 _ _ _ H).
Defined.


Lemma catch_up_across_the_wrap_witness :
  interruptible uno_pin2_at_the_wrap = true /\
  asyncCount (OnChange_each [0; 4; 0] uno_pin2_at_the_wrap) = 2 /\
  Step 256 0 (OnChange_each [0; 4; 0] uno_pin2_at_the_wrap)
  = Done (with_syncCount (asyncCount (OnChange_each [0; 4; 0] uno_pin2_at_the_wrap))
            (with_syncState
               (negated
                  (Z.to_nat
                     (uint32 (asyncCount uno_pin2_at_the_wrap
                              - syncCount uno_pin2_at_the_wrap)
                      + Z.of_nat (length [0; 4; 0])))
                  (syncState uno_pin2_at_the_wrap))
               (OnChange_each [0; 4; 0] uno_pin2_at_the_wrap)),
          replay (active_handler 256 uno_pin2_at_the_wrap)
            (Z.to_nat
               (uint32 (asyncCount uno_pin2_at_the_wrap
                        - syncCount uno_pin2_at_the_wrap)
                + Z.of_nat (length [0; 4; 0])))
            (syncState uno_pin2_at_the_wrap)).
Proof.
  assert (Hi : interruptible uno_pin2_at_the_wrap = true) by evaluated.
  split; [exact Hi|]. split; [evaluated|].
  apply (catch_up_across_the_wrap 256 0 uno_pin2_at_the_wrap [0; 4; 0] Hi).
  - split; split; evaluated.
  - evaluated.
  - evaluated.
  - evaluated.
Defined.

Lemma BRIDGE_READ_one_bit_witness :
  0 <= 2 /\
  raw_level 4 (Z.shiftl 1 2) = Z.testbit 4 2 /\
  bool_of_int (not_BRIDGE_READ 4 (Z.shiftl 1 2)) = negb (Z.testbit 4 2).
Proof.
  assert (H : 0 <= 2) by lia.
  split; [exact H|]. exact (BRIDGE_READ_one_bit 4 2 H).
Defined.

Lemma write_macros_touch_one_bit_witness :
  Z.testbit (load (BRIDGE_WRITE_HIGH 41 (Z.shiftl 1 2) {[43 := 129]}) (41 + 2)) 2
  = true.
Proof.
  assert (Hi : 0 <= 2 < 8) by lia.
  assert (Hj : 0 <= 7 < 8) by lia.
  exact (proj1 (write_macros_touch_one_bit 41 2 {[43 := 129]} 42 7 Hi Hj)).
Defined.

Lemma make_input_clears_the_output_bit_witness :
  Z.testbit 4 2 = true /\
  Z.testbit
    (load (BRIDGE_MAKE_OUTPUT 41 4 (BRIDGE_MAKE_INPUT 41 4 {[43 := 255]})) (41 + 2))
    2
  = false.
Proof.
  assert (Hi : 0 <= 2 < 8) by lia.
  assert (Hm : Z.testbit 4 2 = true) by reflexivity.
  split; [exact Hm|].
  exact (proj1 (proj2 (proj2 (proj2
    (make_input_clears_the_output_bit 41 4 {[43 := 255]} 2 Hi Hm))))).
Defined.

End MoreOnTheUno.
